(** * MCP Research Assistant: ingestion, retrieval and citation core

    A shallow embedding of
      - [src/mcp_server/ingest/pdf_ingest.py]  ([_chunk_text], [ingest_folder]),
      - [src/mcp_server/vectorstore.py]        ([VectorStore.add], [VectorStore.query]),
      - [src/mcp_server/citations.py]          ([_crossref_lookup], [_to_bibtex],
                                               [build_citations]),
    together with the properties of the specification that concern them. *)

From Stdlib Require Import Ascii String Decimal DecimalString DecimalNat.
From Stdlib Require Import DecimalPos DecimalZ.
From Stdlib Require Import List ZArith Lia Bool Arith Floats.
Import ListNotations.

Set Implicit Arguments.
Set Warnings "-register-all".

(** ** Python sequences *)

Module Py.

(** [l[lo:hi]] for arbitrary integers: a negative index counts from the end,
    and both ends are clamped into [0 .. len l]. *)
Definition norm_index (n k : Z) : Z :=
  if (k <? 0)%Z then Z.max (k + n) 0 else Z.min k n.

Definition slice {A : Type} (l : list A) (lo hi : Z) : list A :=
  let n := Z.of_nat (length l) in
  let lo' := norm_index n lo in
  let hi' := norm_index n hi in
  firstn (Z.to_nat (hi' - lo')) (skipn (Z.to_nat lo') l).

Fixpoint take_while {A : Type} (p : A -> bool) (l : list A) : list A :=
  match l with
  | [] => []
  | x :: r => if p x then x :: take_while p r else []
  end.

Fixpoint drop_while {A : Type} (p : A -> bool) (l : list A) : list A :=
  match l with
  | [] => []
  | x :: r => if p x then drop_while p r else l
  end.

(** *** Strings *)

(** A [str] is its sequence of characters; the model keeps the characters
    with code points below 256. *)
Abbreviation str := (list ascii).

Definition lit (s : string) : str := list_ascii_of_string s.

Definition nl : ascii := ascii_of_nat 10.

(** [c.isspace()], which is also the class [\s] of [re] on [str] patterns:
    U+0009..U+000D, U+001C..U+0020, U+0085 and U+00A0. *)
Definition isspace (c : ascii) : bool :=
  let n := nat_of_ascii c in
  ((9 <=? n) && (n <=? 13)) || ((28 <=? n) && (n <=? 32)) || (n =? 133) || (n =? 160).

(** [c.lower()]: A..Z, and U+00C0..U+00DE except the multiplication sign. *)
Definition lower_char (c : ascii) : ascii :=
  let n := nat_of_ascii c in
  if ((65 <=? n) && (n <=? 90)) || ((192 <=? n) && (n <=? 222) && negb (n =? 215))
  then ascii_of_nat (n + 32) else c.

Definition lower (s : str) : str := map lower_char s.

Fixpoint str_eqb (a b : str) : bool :=
  match a, b with
  | [], [] => true
  | x :: a', y :: b' => Ascii.eqb x y && str_eqb a' b'
  | _, _ => false
  end.

Fixpoint startswith (s prefix : str) : bool :=
  match prefix, s with
  | [], _ => true
  | p :: prefix', c :: s' => Ascii.eqb p c && startswith s' prefix'
  | _ :: _, [] => false
  end.

Definition endswith (s suffix : str) : bool := startswith (rev s) (rev suffix).

(** [sub in s] *)
Fixpoint contains (sub s : str) : bool :=
  startswith s sub ||
  match s with
  | [] => false
  | _ :: s' => contains sub s'
  end.

(** [s.split(sep)] for a separator that is not empty: [skip] counts the
    characters of a separator just found that are still to be passed, [cur]
    holds the current piece in reverse. *)
Fixpoint split_loop (sep : str) (skip : nat) (cur : str) (s : str) : list str :=
  match s with
  | [] => [rev cur]
  | c :: s' =>
      match skip with
      | S k => split_loop sep k cur s'
      | O =>
          if startswith s sep
          then rev cur :: split_loop sep (length sep - 1) [] s'
          else split_loop sep 0 (c :: cur) s'
      end
  end.

Definition split (s sep : str) : list str := split_loop sep 0 [] s.

(** [sep.join(l)] *)
Fixpoint join (sep : str) (l : list str) : str :=
  match l with
  | [] => []
  | [x] => x
  | x :: r => x ++ sep ++ join sep r
  end.

(** [str(n)] for integers. *)
Definition str_of_nat (n : nat) : str :=
  list_ascii_of_string (NilEmpty.string_of_uint (Nat.to_uint n)).

Definition str_of_Z (z : Z) : str :=
  list_ascii_of_string (NilEmpty.string_of_int (Z.to_int z)).

(** *** Exceptions and results *)

Inductive exn : Type := Exn (kind : string) (message : string).

Definition AttributeError : exn := Exn "AttributeError" EmptyString.
Definition IndexError : exn := Exn "IndexError" EmptyString.
Definition KeyError : exn := Exn "KeyError" EmptyString.
Definition TypeError : exn := Exn "TypeError" EmptyString.

Inductive result (A : Type) : Type :=
| Ok (a : A)
| Raise (e : exn).
Arguments Ok {A} a.
Arguments Raise {A} e.

(** What a call can come to when it may also run forever: a value, an
    exception, or no end. *)
Inductive outcome (A : Type) : Type :=
| Returned (a : A)
| Raised (e : exn)
| Diverged.
Arguments Returned {A} a.
Arguments Raised {A} e.
Arguments Diverged {A}.

Definition bind {A B : Type} (r : result A) (k : A -> result B) : result B :=
  match r with
  | Ok a => k a
  | Raise e => Raise e
  end.

(** A comprehension whose element expression may raise: the first
    exception ends it. *)
Fixpoint mapM {A B : Type} (f : A -> result B) (l : list A) : result (list B) :=
  match l with
  | [] => Ok []
  | x :: r =>
      bind (f x) (fun y => bind (mapM f r) (fun ys => Ok (y :: ys)))
  end.

(** *** Dynamically typed values

    The objects that cross the boundary to the collaborators: decoded JSON
    and the store's metadata.  A dict keeps its items in insertion order and
    its keys are strings. *)
Inductive value : Type :=
| VNone
| VBool (b : bool)
| VInt (z : Z)
| VFloat (f : float)
| VStr (s : str)
| VList (l : list value)
| VDict (items : list (str * value)).

(** Truth value of an object, as [if x], [x or y] and [not x] test it. *)
Definition truthy (v : value) : bool :=
  match v with
  | VNone => false
  | VBool b => b
  | VInt z => negb (z =? 0)%Z
  | VFloat f => negb (PrimFloat.eqb f 0%float)
  | VStr s => negb (Nat.eqb (length s) 0)
  | VList l => negb (Nat.eqb (length l) 0)
  | VDict items => negb (Nat.eqb (length items) 0)
  end.

Fixpoint lookup (key : str) (items : list (str * value)) : option value :=
  match items with
  | [] => None
  | (k, v) :: r => if str_eqb k key then Some v else lookup key r
  end.

(** [obj.get(key, default)]: only a dict has the method. *)
Definition get (obj : value) (key : str) (default : value) : result value :=
  match obj with
  | VDict items =>
      match lookup key items with
      | Some v => Ok v
      | None => Ok default
      end
  | _ => Raise AttributeError
  end.

(** [obj[0]] *)
Definition item0 (obj : value) : result value :=
  match obj with
  | VList (x :: _) => Ok x
  | VList [] => Raise IndexError
  | VStr (c :: _) => Ok (VStr [c])
  | VStr [] => Raise IndexError
  | VDict _ => Raise KeyError
  | _ => Raise TypeError
  end.

(** The elements a [for] loop over [obj] visits. *)
Definition iterate (obj : value) : result (list value) :=
  match obj with
  | VList l => Ok l
  | VStr s => Ok (map (fun c => VStr [c]) s)
  | VDict items => Ok (map (fun kv => VStr (fst kv)) items)
  | _ => Raise TypeError
  end.

(** [a + b] where [b] is a string. *)
Definition add_str (a : value) (b : str) : result str :=
  match a with
  | VStr s => Ok (s ++ b)
  | _ => Raise TypeError
  end.

End Py.

Declare Scope result_scope.
Delimit Scope result_scope with result.
Notation "x <- e ;; k" := (Py.bind e (fun x => k))
  (at level 61, e at next level, right associativity) : result_scope.

(** ** The text segmenter: [_chunk_text] *)

Module Segmenter.

Section WithAlphabet.

(** The segmenter only looks at characters through the whitespace class
    ([\s], [\S] and [str.strip]), so it is modelled over any alphabet with a
    whitespace test. *)
Context {char : Type}.
Variable isspace : char -> bool.

Local Abbreviation str := (list char).

Definition nonspace (c : char) : bool := negb (isspace c).

(** What is left of the input after the match that starts at [s1]. *)
Definition after_match (s1 : str) : str :=
  Py.drop_while isspace (Py.drop_while nonspace s1).

(** [re.findall(r"\S+\s*", s)]: the scan skips characters at which no match
    starts (whitespace), then takes the longest run of non-whitespace followed
    by the longest run of whitespace, and resumes after the match. *)
Fixpoint findall_loop (fuel : nat) (s : str) : list str :=
  match fuel with
  | O => []
  | S f =>
      match Py.drop_while isspace s with
      | [] => []
      | s1 =>
          let w := Py.take_while nonspace s1 in
          let r := Py.drop_while nonspace s1 in
          let ws := Py.take_while isspace r in
          (w ++ ws) :: findall_loop f (after_match s1)
      end
  end.

Definition findall (s : str) : list str := findall_loop (length s) s.

(** [str.strip()] *)
Definition lstrip (s : str) : str := Py.drop_while isspace s.
Definition rstrip (s : str) : str := rev (Py.drop_while isspace (rev s)).
Definition strip (s : str) : str := rstrip (lstrip s).

(** [str().join(l)], the join on the empty separator *)
Definition join (l : list str) : str := concat l.

(** The [while] loop of [_chunk_text].  [i] is the window start, [chunks] the
    list built so far; [None] means the fuel ran out before the loop
    condition became false. *)
Fixpoint chunk_loop (fuel : nat) (tokens : list str) (chunk_size overlap : Z)
         (i : Z) (chunks : list str) : option (list str) :=
  match fuel with
  | O => None
  | S f =>
      if (i <? Z.of_nat (length tokens))%Z then
        let chunk := join (Py.slice tokens i (i + chunk_size)) in
        chunk_loop f tokens chunk_size overlap
                   (i + (chunk_size - overlap))%Z (chunks ++ [strip chunk])
      else Some chunks
  end.

(** [_chunk_text(text, chunk_size, overlap)], run for [fuel] loop tests. *)
Definition chunk_text_fuel (fuel : nat) (text : str) (chunk_size overlap : Z)
  : option (list str) :=
  chunk_loop fuel (findall text) chunk_size overlap 0%Z [].

(** One more loop test than there are tokens is enough whenever the loop
    terminates at all (see [chunk_text_adequate]). *)
Definition chunk_text (text : str) (chunk_size overlap : Z) : option (list str) :=
  chunk_text_fuel (S (length (findall text))) text chunk_size overlap.

(** The call as its caller sees it.  The body has no [raise] and applies
    only operations that are total on a string and two integers ([findall],
    slicing, [join], [strip], [append]), so the call returns its list or
    does not end. *)
Definition chunk_text_call (text : str) (chunk_size overlap : Z)
  : Py.outcome (list str) :=
  match chunk_text text chunk_size overlap with
  | Some chunks => Py.Returned chunks
  | None => Py.Diverged
  end.

(** The whitespace-delimited tokens of a string: the matches of the
    tokenizer without the whitespace that trails each of them. *)
Definition token_stream (s : str) : list str := map rstrip (findall s).

(** [s.split()], the split on runs of whitespace. *)
Fixpoint split_ws_loop (cur : str) (s : str) : list str :=
  match s with
  | [] => match cur with [] => [] | _ => [rev cur] end
  | c :: r =>
      if isspace c
      then match cur with
           | [] => split_ws_loop [] r
           | _ => rev cur :: split_ws_loop [] r
           end
      else split_ws_loop (c :: cur) r
  end.

Definition split_ws (s : str) : list str := split_ws_loop [] s.

(** Concatenation of the chunks' token streams, the [overlap] tokens that a
    chunk repeats from its predecessor being dropped. *)
Definition merge_streams {A : Type} (overlap : nat) (streams : list (list A)) : list A :=
  match streams with
  | [] => []
  | first :: rest => first ++ flat_map (skipn overlap) rest
  end.

(** *** Reference notions used to state and prove the segmenter's properties *)

(** The windows the loop visits, as lists of tokens: [chunk_size] tokens
    from the current position, which then advances by [step]. *)
Fixpoint windows {A : Type} (fuel chunk_size step : nat) (l : list A) : list (list A) :=
  match fuel with
  | O => []
  | S f =>
      match l with
      | [] => []
      | _ => firstn chunk_size l :: windows f chunk_size step (skipn step l)
      end
  end.

Definition word (w : str) : Prop := w <> [] /\ forallb nonspace w = true.
Definition spaces (ws : str) : Prop := forallb isspace ws = true.

(** A list of tokens as the tokenizer produces them: each is a word followed
    by whitespace, and only the last may lack the whitespace. *)
Inductive tokens_ok : list str -> Prop :=
| tokens_ok_nil : tokens_ok []
| tokens_ok_cons w ws ts :
    word w -> spaces ws -> (ws = [] -> ts = []) -> tokens_ok ts ->
    tokens_ok ((w ++ ws) :: ts).

(** The token list of a chunk after [strip]: the last token has lost its
    trailing whitespace. *)
Fixpoint strip_last (ts : list str) : list str :=
  match ts with
  | [] => []
  | [t] => [rstrip t]
  | t :: r => t :: strip_last r
  end.

End WithAlphabet.

End Segmenter.

(** ** The vector store wrapper: [VectorStore] *)

Module VectorStore.
Import Py.
Local Open Scope result_scope.

(** An embedding. *)
Abbreviation vector := (list float).

(** One record of the collection: id, document and metadata. *)
Record entry : Type := {
  entry_id : str;
  entry_document : str;
  entry_metadata : value
}.

(** The persistent collection, in insertion order. *)
Abbreviation collection := (list entry).

(** The answer of [collection.query]: the fields the wrapper reads.  A field
    is [None] when the key is absent or its value is [None]; each present
    field holds one row per query embedding. *)
Record query_out : Type := {
  documents : option (list (list value));
  metadatas : option (list (list value));
  distances : option (list (list float))
}.

(** One normalized result, [{"text": .., "meta": .., "score": ..}]. *)
Record hit : Type := {
  text : value;
  meta : value;
  score : float
}.

(** [out.get(key, [[]])[0] if out.get(key) else []] *)
Definition first_row {A : Type} (field : option (list (list A))) : list A :=
  match field with
  | Some (row :: _) => row
  | _ => []
  end.

Fixpoint zip3 (ids texts : list str) (metadatas : list value) : list entry :=
  match ids, texts, metadatas with
  | i :: ids', t :: texts', m :: metadatas' =>
      {| entry_id := i; entry_document := t; entry_metadata := m |}
      :: zip3 ids' texts' metadatas'
  | _, _, _ => []
  end.

Section Chroma.

(** The collaborators: the collection of the store, which either refuses a
    batch with an exception or appends it, and answers queries; and the
    embedding provider. *)
Variable collection_add_error :
  collection -> list str -> list str -> list value -> option exn.
Variable collection_query :
  collection -> list vector -> Z -> result query_out.
Variable encode : list str -> result (list vector).

(** [VectorStore.add(ids, texts, metadatas)] *)
Definition add (c : collection) (ids texts : list str) (metadatas : list value)
  : result collection :=
  match collection_add_error c ids texts metadatas with
  | Some e => Raise e
  | None => Ok (c ++ zip3 ids texts metadatas)
  end.

(** [VectorStore.query(question, embeddings, top_k)].  [nth i l d] is
    [l[i] if i < len(l) else d]; the distances of the store are floats, on
    which [float(_)] changes nothing. *)
Definition query (c : collection) (question : str) (top_k : Z) : result (list hit) :=
  vecs <- encode [question] ;;
  question_embedding <- match vecs with
                        | v :: _ => Ok v
                        | [] => Raise IndexError
                        end ;;
  out <- collection_query c [question_embedding] top_k ;;
  let documents := first_row (documents out) in
  let metadatas := first_row (metadatas out) in
  let distances := first_row (distances out) in
  Ok (map (fun i =>
             {| text := nth i documents (VStr []);
                meta := nth i metadatas (VDict []);
                score := nth i distances 1%float |})
          (seq 0 (length documents))).

End Chroma.

End VectorStore.

(** ** Ingestion: [ingest_folder] *)

Module Ingest.
Import Py VectorStore.

(** What the call changes: the collection, the number of uuids drawn so
    far, and the messages handed to the progress callback. *)
Record world : Type := {
  store : collection;
  uuid_calls : nat;
  progress : list str
}.

(** Computations of the ingestion: the world is threaded through, and the
    first exception ends the computation in the world it was raised in. *)
Definition M (A : Type) : Type := world -> outcome A * world.

Definition ret {A : Type} (a : A) : M A := fun w => (Returned a, w).

Definition mbind {A B : Type} (m : M A) (k : A -> M B) : M B :=
  fun w =>
    match m w with
    | (Returned a, w') => k a w'
    | (Raised e, w') => (Raised e, w')
    | (Diverged, w') => (Diverged, w')
    end.

Definition lift {A : Type} (r : result A) : M A :=
  fun w =>
    match r with
    | Ok a => (Returned a, w)
    | Raise e => (Raised e, w)
    end.

Declare Scope ingest_scope.
Delimit Scope ingest_scope with ingest.
Notation "x <- e ;; k" := (mbind e (fun x => k))
  (at level 61, e at next level, right associativity) : ingest_scope.
Local Open Scope ingest_scope.

(** [os.path.join(root, name)] on a POSIX system. *)
Definition path_join (root name : str) : str :=
  if startswith name (lit "/") then name
  else if Nat.eqb (length root) 0 || endswith root (lit "/") then root ++ name
  else root ++ lit "/" ++ name.

Definition is_pdf (name : str) : bool := endswith (lower name) (lit ".pdf").

(** [{"source": full, "chunk_index": i}] *)
Definition chunk_meta (full : str) (i : nat) : value :=
  VDict [(lit "source", VStr full); (lit "chunk_index", VInt (Z.of_nat i))].

(** The value a metadata mapping holds under [key]. *)
Definition meta_field (key : str) (m : value) : option value :=
  match m with
  | VDict items => lookup key items
  | _ => None
  end.

(** Whether a metadata mapping names [full] as its source. *)
Definition from_source (full : str) (m : value) : bool :=
  match meta_field (lit "source") m with
  | Some (VStr s) => str_eqb s full
  | _ => false
  end.

(** The [chunk_index] values, in order, of the metadata that name [full]
    as their source. *)
Definition chunk_indexes (full : str) (metas : list value) : list (option value) :=
  map (meta_field (lit "chunk_index")) (filter (from_source full) metas).

Section Collaborators.

(** [_extract_text_from_pdf], the embedding provider, the collection's
    verdict on a batch, and the successive values of [uuid.uuid4().hex]. *)
Variable extract_text_from_pdf : str -> result str.
Variable encode : list str -> result (list vector).
Variable collection_add_error :
  collection -> list str -> list str -> list value -> option exn.
Variable uuid4_hex : nat -> str.

(** [if progress_cb: progress_cb(msg)]; [progress_cb] tells whether a
    callback was given, and what the callback receives is recorded. *)
Definition notify (progress_cb : bool) (msg : str) : M unit :=
  fun w =>
    if progress_cb
    then (Returned tt, {| store := store w; uuid_calls := uuid_calls w;
                          progress := progress w ++ [msg] |})
    else (Returned tt, w).

(** [_chunk_text(text)] with the default window, 800 tokens overlapping
    by 120. *)
Definition segment (text : str) : M (list str) :=
  fun w => (Segmenter.chunk_text_call isspace text 800 120, w).

(** [[f"{uuid.uuid4().hex}-{i}" for i in range(n)]] *)
Definition make_ids (first n : nat) : list str :=
  map (fun i => uuid4_hex (first + i) ++ lit "-" ++ str_of_nat i) (seq 0 n).

Definition fresh_ids (n : nat) : M (list str) :=
  fun w =>
    (Returned (make_ids (uuid_calls w) n),
     {| store := store w; uuid_calls := uuid_calls w + n; progress := progress w |}).

(** [store.add(ids, chunks, metas)] *)
Definition commit (ids chunks : list str) (metas : list value) : M unit :=
  fun w =>
    match VectorStore.add collection_add_error (store w) ids chunks metas with
    | Ok c => (Returned tt, {| store := c; uuid_calls := uuid_calls w;
                               progress := progress w |})
    | Raise e => (Raised e, w)
    end.

(** The body of the inner loop for one file that passed the extension
    test; [total] is [total_chunks]. *)
Definition ingest_file (progress_cb : bool) (full : str) (total : nat) : M nat :=
  _ <- notify progress_cb (lit "Parsing " ++ full) ;;
  text <- lift (extract_text_from_pdf full) ;;
  chunks <- segment text ;;
  match chunks with
  | [] => ret total
  | _ :: _ =>
      vecs <- lift (encode chunks) ;;
      ids <- fresh_ids (length chunks) ;;
      let metas := map (chunk_meta full) (seq 0 (length chunks)) in
      _ <- commit ids chunks metas ;;
      ret (total + length chunks)
  end.

(** [for name in files] *)
Fixpoint ingest_names (progress_cb : bool) (root : str) (names : list str)
         (total : nat) : M nat :=
  match names with
  | [] => ret total
  | name :: rest =>
      total' <- (if is_pdf name
                 then ingest_file progress_cb (path_join root name) total
                 else ret total) ;;
      ingest_names progress_cb root rest total'
  end.

(** [for root, _, files in os.walk(path)]: [walk] is what [os.walk] yields,
    the directory and its file names. *)
Fixpoint ingest_walk (progress_cb : bool) (walk : list (str * list str))
         (total : nat) : M nat :=
  match walk with
  | [] => ret total
  | (root, names) :: rest =>
      total' <- ingest_names progress_cb root names total ;;
      ingest_walk progress_cb rest total'
  end.

(** [ingest_folder(path, embeddings, store, progress_cb)] *)
Definition ingest_folder (walk : list (str * list str)) (progress_cb : bool) : M nat :=
  ingest_walk progress_cb walk 0.

(** *** Reference notions *)

(** The files the call ingests, in the order it meets them. *)
Definition pdf_files (walk : list (str * list str)) : list str :=
  flat_map (fun d => map (path_join (fst d)) (filter is_pdf (snd d))) walk.

(** The loop over those files alone. *)
Fixpoint ingest_files (progress_cb : bool) (files : list str) (total : nat) : M nat :=
  match files with
  | [] => ret total
  | full :: rest =>
      total' <- ingest_file progress_cb full total ;;
      ingest_files progress_cb rest total'
  end.

(** The chunks of a document, when its text can be extracted. *)
Definition doc_chunks (full : str) : list str :=
  match extract_text_from_pdf full with
  | Ok text =>
      match Segmenter.chunk_text isspace text 800 120 with
      | Some chunks => chunks
      | None => []
      end
  | Raise _ => []
  end.

(** The batch a document commits. *)
Definition doc_metas (full : str) : list value :=
  map (chunk_meta full) (seq 0 (length (doc_chunks full))).

(** The world a file leaves when every one of its steps succeeds. *)
Definition after_file (progress_cb : bool) (full : str) (w : world) : world :=
  let chunks := doc_chunks full in
  {| store := store w ++
              zip3 (make_ids (uuid_calls w) (length chunks)) chunks (doc_metas full);
     uuid_calls := uuid_calls w + length chunks;
     progress := if progress_cb then progress w ++ [lit "Parsing " ++ full]
                 else progress w |}.

(** The stage at which a file fails, in world [w], with exception [e]. *)
Inductive fails_with (full : str) (w : world) (e : exn) : Prop :=
| fails_extract :
    extract_text_from_pdf full = Raise e -> fails_with full w e
| fails_encode :
    (exists text, extract_text_from_pdf full = Ok text) ->
    doc_chunks full <> [] ->
    encode (doc_chunks full) = Raise e -> fails_with full w e
| fails_commit :
    (exists text, extract_text_from_pdf full = Ok text) ->
    doc_chunks full <> [] ->
    (exists vecs, encode (doc_chunks full) = Ok vecs) ->
    collection_add_error (store w)
      (make_ids (uuid_calls w) (length (doc_chunks full)))
      (doc_chunks full) (doc_metas full) = Some e ->
    fails_with full w e.

End Collaborators.

End Ingest.

(** ** Citations: [build_citations] *)

Module Citations.
Import Py.
Local Open Scope result_scope.

Section Collaborators.

(** The HTTP exchange of [_crossref_lookup] ([requests.get],
    [raise_for_status] and [r.json()]), [str()] of the values whose text the
    model does not compute (floats, lists and dicts), and
    [json.dumps(_, indent=2)]. *)
Variable http_get_json : str -> result value.
Variable str_of_other : value -> str.
Variable json_dumps : value -> str.

(** [str(v)], which is also how an f-string renders [v]. *)
Definition py_str (v : value) : str :=
  match v with
  | VNone => lit "None"
  | VBool true => lit "True"
  | VBool false => lit "False"
  | VInt z => str_of_Z z
  | VStr s => s
  | _ => str_of_other v
  end.

(** [_crossref_lookup(identifier)] *)
Definition crossref_lookup (identifier : str) : result value :=
  let doi := if contains (lit "doi.org/") identifier
             then last (split identifier (lit "doi.org/")) identifier
             else identifier in
  let url := lit "https://api.crossref.org/works/" ++ doi in
  body <- http_get_json url ;;
  get body (lit "message") (VDict []).

(** [f"{a.get('family','')}, {a.get('given','')}"] *)
Definition author_name (a : value) : result str :=
  family <- get a (lit "family") (VStr []) ;;
  given <- get a (lit "given") (VStr []) ;;
  Ok (py_str family ++ lit ", " ++ py_str given).

(** [_to_bibtex(message)] *)
Definition to_bibtex (message : value) : result str :=
  authors <- get message (lit "author") (VList []) ;;
  people <- iterate authors ;;
  names <- mapM author_name people ;;
  let author_str := join (lit " and ") names in
  titles <- get message (lit "title") (VList [VStr []]) ;;
  title <- item0 titles ;;
  issued <- get message (lit "issued") (VDict []) ;;
  date_parts <- get issued (lit "date-parts") (VList [VList [VNone]]) ;;
  date <- item0 date_parts ;;
  year <- item0 date ;;
  doi <- get message (lit "DOI") (VStr []) ;;
  key_head <- (if truthy authors
               then (first <- item0 authors ;; get first (lit "family") (VStr []))
               else Ok (VStr (lit "paper"))) ;;
  entry_key <- add_str key_head (if truthy year then py_str year else []) ;;
  Ok (lit "@article{" ++ entry_key ++ lit "," ++ [nl] ++
      lit "  title={ " ++ py_str title ++ lit " }," ++ [nl] ++
      lit "  author={ " ++ author_str ++ lit " }," ++ [nl] ++
      lit "  year={ " ++ (if truthy year then py_str year else []) ++ lit " }," ++ [nl] ++
      lit "  doi={ " ++ py_str doi ++ lit " }" ++ [nl] ++
      lit "}").

(** [build_citations(identifiers, style)] *)
Definition build_citations (identifiers : list str) (style : str) : result str :=
  messages <- mapM crossref_lookup identifiers ;;
  if str_eqb (lower style) (lit "bibtex")
  then (entries <- mapM to_bibtex messages ;; Ok (join [nl; nl] entries))
  else Ok (json_dumps (VList messages)).

End Collaborators.

End Citations.

(** ** A JSON codec

    An executable printer and parser in the format of
    [json.dumps(_, indent=2)] and [json.loads].  Both are library code and
    parameters of [Citations]; this codec is what the parameters are
    instantiated with.  It renders the values that hold no float, and reads
    back what it renders ([JsonFacts.loads_dumps]); a float is written as
    the token [NaN]. *)

Module Json.
Import Py.

Definition dq : ascii := ascii_of_nat 34.
Definition bs : ascii := ascii_of_nat 92.

Definition hex_digit (n : nat) : ascii := nth n (lit "0123456789abcdef") "0"%char.

(** [ensure_ascii]: the quote, the backslash and every character outside
    the printable ASCII range are escaped. *)
Definition escape_char (c : ascii) : str :=
  let n := nat_of_ascii c in
  if n =? 34 then [bs; dq]
  else if n =? 92 then [bs; bs]
  else if n =? 10 then [bs; "n"%char]
  else if n =? 13 then [bs; "r"%char]
  else if n =? 9 then [bs; "t"%char]
  else if n =? 8 then [bs; "b"%char]
  else if n =? 12 then [bs; "f"%char]
  else if (n <? 32) || (126 <? n)
       then [bs; "u"%char; "0"%char; "0"%char; hex_digit (n / 16); hex_digit (n mod 16)]
       else [c].

Definition quote (s : str) : str := dq :: flat_map escape_char s ++ [dq].

Definition indent (level : nat) : str := repeat " "%char (2 * level).

Definition separator (level : nat) : str := lit "," ++ [nl] ++ indent level.

Fixpoint dumps_at (level : nat) (v : value) : str :=
  match v with
  | VNone => lit "null"
  | VBool true => lit "true"
  | VBool false => lit "false"
  | VInt z => str_of_Z z
  | VFloat _ => lit "NaN"
  | VStr s => quote s
  | VList [] => lit "[]"
  | VList l =>
      lit "[" ++ [nl] ++ indent (S level) ++
      join (separator (S level)) (map (dumps_at (S level)) l) ++
      [nl] ++ indent level ++ lit "]"
  | VDict [] => lit "{}"
  | VDict items =>
      lit "{" ++ [nl] ++ indent (S level) ++
      join (separator (S level))
           (map (fun kv => quote (fst kv) ++ lit ": " ++ dumps_at (S level) (snd kv))
                items) ++
      [nl] ++ indent level ++ lit "}"
  end.

Definition dumps (v : value) : str := dumps_at 0 v.

(** *** Reading *)

Definition is_ws (c : ascii) : bool :=
  let n := nat_of_ascii c in
  (n =? 32) || (n =? 10) || (n =? 13) || (n =? 9).

Definition skip_ws (s : str) : str := drop_while is_ws s.

Definition is_digit (c : ascii) : bool :=
  let n := nat_of_ascii c in (48 <=? n) && (n <=? 57).

Definition hex_value (c : ascii) : option nat :=
  let n := nat_of_ascii c in
  if (48 <=? n) && (n <=? 57) then Some (n - 48)
  else if (97 <=? n) && (n <=? 102) then Some (n - 87)
  else if (65 <=? n) && (n <=? 70) then Some (n - 55)
  else None.

(** The characters of a string literal after its opening quote. *)
Fixpoint parse_string (s acc : str) : option (str * str) :=
  match s with
  | [] => None
  | c :: r =>
      if Ascii.eqb c dq then Some (rev acc, r)
      else if Ascii.eqb c bs then
        match r with
        | [] => None
        | e :: r' =>
            if Ascii.eqb e "n" then parse_string r' (nl :: acc)
            else if Ascii.eqb e "r" then parse_string r' (ascii_of_nat 13 :: acc)
            else if Ascii.eqb e "t" then parse_string r' (ascii_of_nat 9 :: acc)
            else if Ascii.eqb e "b" then parse_string r' (ascii_of_nat 8 :: acc)
            else if Ascii.eqb e "f" then parse_string r' (ascii_of_nat 12 :: acc)
            else if Ascii.eqb e "/" then parse_string r' ("/"%char :: acc)
            else if Ascii.eqb e dq then parse_string r' (dq :: acc)
            else if Ascii.eqb e bs then parse_string r' (bs :: acc)
            else if Ascii.eqb e "u" then
              match r' with
              | h1 :: h2 :: h3 :: h4 :: r'' =>
                  match hex_value h1, hex_value h2, hex_value h3, hex_value h4 with
                  | Some 0, Some 0, Some a, Some b =>
                      parse_string r'' (ascii_of_nat (16 * a + b) :: acc)
                  | _, _, _, _ => None
                  end
              | _ => None
              end
            else None
        end
      else parse_string r (c :: acc)
  end.

(** An integer literal; a fraction or an exponent is not read. *)
Definition parse_int (s : str) : option (value * str) :=
  let negative := startswith s (lit "-") in
  let body := if negative then skipn 1 s else s in
  let ds := take_while is_digit body in
  let rest := drop_while is_digit body in
  match ds, NilEmpty.uint_of_string (string_of_list_ascii ds) with
  | _ :: _, Some d =>
      if startswith rest (lit ".") || startswith rest (lit "e")
         || startswith rest (lit "E")
      then None
      else Some (VInt (Z.of_int (if negative then Decimal.Neg d else Decimal.Pos d)),
                 rest)
  | _, _ => None
  end.

Definition literal (word : str) (v : value) (s : str) : option (value * str) :=
  if startswith s word then Some (v, skipn (length word) s) else None.

Fixpoint parse_value (fuel : nat) (s : str) : option (value * str) :=
  match fuel with
  | O => None
  | S f =>
      match s with
      | [] => None
      | c :: r =>
          if Ascii.eqb c "n" then literal (lit "null") VNone s
          else if Ascii.eqb c "t" then literal (lit "true") (VBool true) s
          else if Ascii.eqb c "f" then literal (lit "false") (VBool false) s
          else if Ascii.eqb c dq then
            match parse_string r [] with
            | Some (x, rest) => Some (VStr x, rest)
            | None => None
            end
          else if Ascii.eqb c "[" then
            match skip_ws r with
            | c' :: rest =>
                if Ascii.eqb c' "]" then Some (VList [], rest)
                else match parse_elements f (c' :: rest) with
                     | Some (l, rest') => Some (VList l, rest')
                     | None => None
                     end
            | [] => None
            end
          else if Ascii.eqb c "{" then
            match skip_ws r with
            | c' :: rest =>
                if Ascii.eqb c' "}" then Some (VDict [], rest)
                else match parse_members f (c' :: rest) with
                     | Some (items, rest') => Some (VDict items, rest')
                     | None => None
                     end
            | [] => None
            end
          else parse_int s
      end
  end
with parse_elements (fuel : nat) (s : str) : option (list value * str) :=
  match fuel with
  | O => None
  | S f =>
      match parse_value f s with
      | Some (v, rest) =>
          match skip_ws rest with
          | c :: rest' =>
              if Ascii.eqb c "]" then Some ([v], rest')
              else if Ascii.eqb c "," then
                match parse_elements f (skip_ws rest') with
                | Some (l, rest'') => Some (v :: l, rest'')
                | None => None
                end
              else None
          | [] => None
          end
      | None => None
      end
  end
with parse_members (fuel : nat) (s : str) : option (list (str * value) * str) :=
  match fuel with
  | O => None
  | S f =>
      match s with
      | c :: r =>
          if Ascii.eqb c dq then
            match parse_string r [] with
            | Some (key, rest) =>
                match skip_ws rest with
                | c1 :: rest1 =>
                    if Ascii.eqb c1 ":" then
                      match parse_value f (skip_ws rest1) with
                      | Some (v, rest2) =>
                          match skip_ws rest2 with
                          | c2 :: rest3 =>
                              if Ascii.eqb c2 "}" then Some ([(key, v)], rest3)
                              else if Ascii.eqb c2 "," then
                                match parse_members f (skip_ws rest3) with
                                | Some (items, rest4) => Some ((key, v) :: items, rest4)
                                | None => None
                                end
                              else None
                          | [] => None
                          end
                      | None => None
                      end
                    else None
                | [] => None
                end
            | None => None
            end
          else None
      | [] => None
      end
  end.

Definition loads (s : str) : option value :=
  match parse_value (2 * length s + 2) (skip_ws s) with
  | Some (v, rest) =>
      match skip_ws rest with
      | [] => Some v
      | _ :: _ => None
      end
  | None => None
  end.


(** *** Reference notions for the round trip *)

Fixpoint float_free (v : value) : bool :=
  match v with
  | VFloat _ => false
  | VList l => forallb float_free l
  | VDict items => forallb (fun kv => float_free (snd kv)) items
  | _ => true
  end.

Fixpoint size (v : value) : nat :=
  match v with
  | VList l => S (list_sum (map (fun x => S (size x)) l))
  | VDict items => S (list_sum (map (fun kv => S (size (snd kv))) items))
  | _ => 1
  end.

(** What may follow a value: the end of the text, or a character that
    cannot continue a number. *)
Definition stops_number (rest : str) : bool :=
  match rest with
  | [] => true
  | c :: _ =>
      negb (is_digit c) && negb (Ascii.eqb c ".") && negb (Ascii.eqb c "e")
      && negb (Ascii.eqb c "E")
  end.

(** How a value starts: not with whitespace and not with a closing
    bracket. *)
Definition starts_value (s : str) : bool :=
  match s with
  | [] => false
  | c :: _ => negb (is_ws c) && negb (Ascii.eqb c "]") && negb (Ascii.eqb c "}")
  end.

(** What reading back means for one value, at any nesting level and any
    fuel that covers its size. *)
Definition reads_back (v : value) : Prop :=
  float_free v = true ->
  forall level fuel rest,
    size v <= fuel -> stops_number rest = true ->
    parse_value fuel (dumps_at level v ++ rest) = Some (v, rest).

End Json.

(** ** Concrete collaborators

    Instances of the collaborators, on which the model runs: they serve the
    examples that accompany the properties. *)

Module Demo.
Import Py VectorStore.

(** A text of [n] tokens. *)
Definition words (n : nat) : str := concat (repeat (lit "w ") n).

(** An extractor: a corrupt file, a file without text, a long file and
    short ones. *)
Definition extract (path : str) : result str :=
  if endswith path (lit "bad.pdf") then Raise (Exn "ExtractionError" "corrupt file")
  else if endswith path (lit "blank.pdf") then Ok (lit "   " ++ [nl] ++ lit "  ")
  else if endswith (lower path) (lit "long.pdf") then Ok (words 1000)
  else Ok (lit "alpha  beta gamma").

Definition encode (texts : list str) : result (list vector) :=
  Ok (map (fun _ => [0%float]) texts).

Definition add_error (c : collection) (ids texts : list str) (metas : list value)
  : option exn := None.

(** A generator that returns the same value at every call. *)
Definition uuid4_hex (n : nat) : str := lit "0123456789abcdef0123456789abcdef".

(** A store that answers with its first [n_results] entries. *)
Definition collection_query (c : collection) (embeddings : list vector) (n_results : Z)
  : result query_out :=
  let found := firstn (Z.to_nat n_results) c in
  Ok {| documents := Some [map (fun e => VStr (entry_document e)) found];
        metadatas := Some [map entry_metadata found];
        distances := Some [map (fun _ => 0.5%float) found] |}.


Definition two_entries : collection :=
  [ {| entry_id := lit "a-0"; entry_document := lit "first";
       entry_metadata := Ingest.chunk_meta (lit "a.pdf") 0 |};
    {| entry_id := lit "a-1"; entry_document := lit "second";
       entry_metadata := Ingest.chunk_meta (lit "a.pdf") 1 |} ].

Definition empty_world : Ingest.world :=
  {| Ingest.store := []; Ingest.uuid_calls := 0; Ingest.progress := [] |}.

Definition walk : list (str * list str) :=
  [ (lit "papers", [lit "a.pdf"; lit "notes.txt"; lit "blank.pdf"]);
    (lit "papers/sub", [lit "LONG.PDF"]) ].

Definition walk_with_bad : list (str * list str) :=
  [ (lit "papers", [lit "a.pdf"; lit "bad.pdf"; lit "c.pdf"]) ].

(** The world after the file [papers/a.pdf] alone. *)
Definition world_after_a : Ingest.world :=
  {| Ingest.store :=
       [ {| entry_id := lit "0123456789abcdef0123456789abcdef-0";
            entry_document := lit "alpha  beta gamma";
            entry_metadata := Ingest.chunk_meta (lit "papers/a.pdf") 0 |} ];
     Ingest.uuid_calls := 1;
     Ingest.progress := [lit "Parsing papers/a.pdf"] |}.




(** The record of the specification's citation example, the resolver's
    answer that carries it, and the two renderings of its entry. *)
Definition doe_record : value :=
  VDict [ (lit "author",
           VList [VDict [(lit "family", VStr (lit "Doe"));
                         (lit "given", VStr (lit "Jane"))]]);
          (lit "title", VList [VStr (lit "A Study")]);
          (lit "issued", VDict [(lit "date-parts", VList [VList [VInt 2021]])]);
          (lit "DOI", VStr (lit "10.1000/xyz123")) ].

Definition http_get_json (url : str) : result value :=
  Ok (VDict [(lit "status", VStr (lit "ok")); (lit "message", doe_record)]).

Definition str_of_other (v : value) : str := [].

Definition doe_entry : str :=
  lit "@article{Doe2021," ++ [nl] ++
  lit "  title={ A Study }," ++ [nl] ++
  lit "  author={ Doe, Jane }," ++ [nl] ++
  lit "  year={ 2021 }," ++ [nl] ++
  lit "  doi={ 10.1000/xyz123 }" ++ [nl] ++
  lit "}".

Definition doe_entry_one_line : str :=
  lit "@article{Doe2021, title={ A Study }, author={ Doe, Jane }, year={ 2021 }, doi={ 10.1000/xyz123 }}".

End Demo.

(** * Properties *)

Module PyFacts.
Import Py.

Section ListFacts.
Context {A : Type}.
Variable p : A -> bool.

Lemma take_drop_while (l : list A) :
  Py.take_while p l ++ Py.drop_while p l = l.
Proof.
  induction l as [|x r IH]; simpl; auto.
  destruct (p x); simpl; congruence.
Qed.

Lemma take_while_all (l : list A) :
  forallb p (Py.take_while p l) = true.
Proof.
  induction l as [|x r IH]; simpl; auto.
  destruct (p x) eqn:E; simpl; auto. now rewrite E, IH.
Qed.

Lemma drop_while_length (l : list A) :
  length (Py.drop_while p l) <= length l.
Proof.
  induction l as [|x r IH]; simpl; auto.
  destruct (p x); simpl; lia.
Qed.

Lemma drop_while_all (l : list A) :
  forallb p l = true -> Py.drop_while p l = [].
Proof.
  induction l as [|x r IH]; simpl; auto.
  destruct (p x); simpl; auto. discriminate.
Qed.

Lemma take_while_all_id (l : list A) :
  forallb p l = true -> Py.take_while p l = l.
Proof.
  induction l as [|x r IH]; simpl; auto.
  destruct (p x); simpl; try discriminate. intros; f_equal; auto.
Qed.

Lemma drop_while_app_all (l r : list A) :
  forallb p l = true -> Py.drop_while p (l ++ r) = Py.drop_while p r.
Proof.
  induction l as [|x l IH]; simpl; auto.
  destruct (p x); simpl; auto. discriminate.
Qed.

Lemma take_while_app_all (l r : list A) :
  forallb p l = true -> Py.take_while p (l ++ r) = l ++ Py.take_while p r.
Proof.
  induction l as [|x l IH]; simpl; auto.
  destruct (p x); simpl; try discriminate. intros; f_equal; auto.
Qed.

Lemma drop_while_app (l r : list A) :
  Py.drop_while p (l ++ r) =
  match Py.drop_while p l with
  | [] => Py.drop_while p r
  | d => d ++ r
  end.
Proof.
  induction l as [|x l IH]; simpl.
  - destruct (Py.drop_while p r); auto.
  - destruct (p x); auto.
Qed.

Lemma drop_while_head (l : list A) x r :
  Py.drop_while p l = x :: r -> p x = false.
Proof.
  induction l as [|y l IH]; simpl; try discriminate.
  destruct (p y) eqn:E; auto. intros H; inversion H; subst; auto.
Qed.

End ListFacts.

Lemma forallb_rev {A : Type} (p : A -> bool) l : forallb p (rev l) = forallb p l.
Proof.
  induction l as [|x l IH]; simpl; auto.
  rewrite forallb_app, IH. simpl. rewrite andb_true_r. apply andb_comm.
Qed.


Lemma str_eqb_eq (a : str) : forall b, str_eqb a b = true <-> a = b.
Proof.
  induction a as [|x a IH]; intros [|y b]; simpl; try (split; congruence).
  rewrite andb_true_iff, Ascii.eqb_eq, IH. split.
  - intros [-> ->]. reflexivity.
  - intros H; inversion H; auto.
Qed.

Lemma str_eqb_refl (a : str) : str_eqb a a = true.
Proof. now apply str_eqb_eq. Qed.

Lemma str_eqb_neq (a b : str) : a <> b -> str_eqb a b = false.
Proof.
  intros H. destruct (str_eqb a b) eqn:E; auto.
  apply str_eqb_eq in E. contradiction.
Qed.

(** *** Decimal numerals *)

Lemma digits_no_dash d :
  forallb (fun c => negb (Ascii.eqb c "-"))
          (list_ascii_of_string (NilEmpty.string_of_uint d)) = true.
Proof. induction d; simpl; auto. Qed.

Lemma str_of_nat_inj i j : str_of_nat i = str_of_nat j -> i = j.
Proof.
  unfold str_of_nat. intros H.
  apply (f_equal string_of_list_ascii) in H.
  rewrite !string_of_list_ascii_of_string in H.
  apply (f_equal NilEmpty.uint_of_string) in H.
  rewrite !NilEmpty.usu in H. inversion H as [H'].
  now apply DecimalNat.Unsigned.to_uint_inj.
Qed.

End PyFacts.

Module SegmenterFacts.
Import Segmenter PyFacts.


Section TokenizerFacts.
Context {char : Type}.
Variable isspace : char -> bool.
Local Abbreviation str := (list char).

Local Abbreviation findall := (findall isspace).
Local Abbreviation findall_loop := (findall_loop isspace).
Local Abbreviation nonspace := (nonspace isspace).
Local Abbreviation word := (word isspace).
Local Abbreviation spaces := (spaces isspace).
Local Abbreviation tokens_ok := (tokens_ok isspace).
Local Abbreviation after_match := (after_match isspace).
Local Abbreviation rstrip := (rstrip isspace).
Local Abbreviation lstrip := (lstrip isspace).
Local Abbreviation strip := (strip isspace).

Lemma nonspace_false c : nonspace c = false <-> isspace c = true.
Proof. unfold Segmenter.nonspace. destruct (isspace c); simpl; intuition congruence. Qed.

Lemma nonspace_true c : nonspace c = true <-> isspace c = false.
Proof. unfold Segmenter.nonspace. destruct (isspace c); simpl; intuition congruence. Qed.

(** A word starts with a character that is not whitespace. *)
Lemma word_head w : word w -> exists c r, w = c :: r /\ isspace c = false.
Proof.
  intros [Hne Hall]. destruct w as [|c r]; [congruence|].
  simpl in Hall. apply andb_true_iff in Hall as [Hc _].
  exists c, r. split; auto. now apply nonspace_true.
Qed.

Lemma lstrip_word w rest : word w -> Py.drop_while isspace (w ++ rest) = w ++ rest.
Proof.
  intros Hw. destruct (word_head Hw) as (c & r & -> & Hc).
  simpl. now rewrite Hc.
Qed.

Lemma after_match_shorter c r : isspace c = false ->
  length (after_match (c :: r)) < length (c :: r).
Proof.
  intros Hc. unfold Segmenter.after_match. simpl.
  replace (nonspace c) with true by (symmetry; now apply nonspace_true).
  pose proof (drop_while_length isspace (Py.drop_while nonspace r)).
  pose proof (drop_while_length nonspace r). simpl. lia.
Qed.

Lemma findall_loop_fuel f1 : forall f2 s,
  length s <= f1 -> length s <= f2 -> findall_loop f1 s = findall_loop f2 s.
Proof.
  induction f1 as [|f1 IH]; intros f2 s H1 H2.
  - destruct s; [|simpl in H1; lia]. destruct f2; reflexivity.
  - destruct f2 as [|f2].
    + destruct s; [|simpl in H2; lia]. reflexivity.
    + cbn [Segmenter.findall_loop].
      destruct (Py.drop_while isspace s) as [|c r] eqn:E; auto.
      f_equal.
      pose proof (drop_while_head _ _ E) as Hc.
      pose proof (after_match_shorter r Hc) as Hlt.
      pose proof (drop_while_length isspace s) as Hle. rewrite E in Hle.
      apply IH; lia.
Qed.

Lemma findall_unfold s :
  findall s =
  match Py.drop_while isspace s with
  | [] => []
  | s1 => (Py.take_while nonspace s1 ++
           Py.take_while isspace (Py.drop_while nonspace s1))
          :: findall (after_match s1)
  end.
Proof.
  unfold Segmenter.findall at 1. destruct s as [|a s].
  - reflexivity.
  - cbn [length Segmenter.findall_loop].
    destruct (Py.drop_while isspace (a :: s)) as [|c r] eqn:E; auto.
    f_equal. unfold Segmenter.findall.
    pose proof (drop_while_head _ _ E) as Hc.
    pose proof (after_match_shorter r Hc) as Hlt.
    pose proof (drop_while_length isspace (a :: s)) as Hle. rewrite E in Hle.
    apply findall_loop_fuel; cbn [length] in *; lia.
Qed.

Lemma findall_spaces s : spaces s -> findall s = [].
Proof.
  intros H. rewrite findall_unfold. now rewrite (drop_while_all _ _ H).
Qed.

Lemma word_nonspace w : word w -> forallb nonspace w = true.
Proof. now intros []. Qed.

Lemma spaces_not_nonspace ws rest :
  spaces ws -> (ws = [] -> rest = []) ->
  Py.drop_while nonspace (ws ++ rest) = ws ++ rest /\
  Py.take_while nonspace (ws ++ rest) = [].
Proof.
  intros Hs Hr. destruct ws as [|c ws].
  - rewrite (Hr eq_refl). auto.
  - simpl in *. apply andb_true_iff in Hs as [Hc _].
    replace (nonspace c) with false by (symmetry; now apply nonspace_false). auto.
Qed.

(** One token in front of an input that does not start with whitespace is
    the first match, and the scan resumes right after it. *)
Lemma findall_token_app w ws rest :
  word w -> spaces ws -> (ws = [] -> rest = []) ->
  Py.drop_while isspace rest = rest ->
  findall ((w ++ ws) ++ rest) = (w ++ ws) :: findall rest.
Proof.
  intros Hw Hs Hr Hrest.
  rewrite findall_unfold. rewrite <- app_assoc.
  rewrite (lstrip_word _ Hw).
  destruct (word_head Hw) as (c & r & Ew & Hc).
  destruct (w ++ ws ++ rest) as [|c' r'] eqn:E; [subst w; discriminate|].
  rewrite <- E. unfold Segmenter.after_match.
  destruct (spaces_not_nonspace Hs Hr) as [Hd Ht].
  rewrite (take_while_app_all _ _ _ (word_nonspace Hw)), Ht, app_nil_r.
  rewrite (drop_while_app_all _ _ _ (word_nonspace Hw)), Hd.
  rewrite (take_while_app_all _ _ _ Hs), (drop_while_app_all _ _ _ Hs).
  rewrite Hrest. f_equal. f_equal.
  destruct rest as [|x rest]; simpl; [now rewrite app_nil_r|].
  simpl in Hrest. destruct (isspace x) eqn:Ex; [|now rewrite app_nil_r].
  exfalso. pose proof (drop_while_length isspace rest) as Hl.
  rewrite Hrest in Hl. simpl in Hl. lia.
Qed.

Lemma tokens_ok_lstrip ts : tokens_ok ts ->
  Py.drop_while isspace (concat ts) = concat ts.
Proof.
  intros H. destruct H as [|w ws ts Hw Hs Hr Hts]; auto.
  simpl. rewrite <- app_assoc. now apply lstrip_word.
Qed.

Lemma findall_concat ts : tokens_ok ts -> findall (concat ts) = ts.
Proof.
  induction 1 as [|w ws ts Hw Hs Hr Hts IH]; auto.
  simpl. rewrite findall_token_app; auto.
  - now rewrite IH.
  - intros E. now rewrite (Hr E).
  - now apply tokens_ok_lstrip.
Qed.

Lemma findall_ok_len n : forall s, length s <= n -> tokens_ok (findall s).
Proof.
  induction n as [|n IH]; intros s Hn.
  - destruct s; [constructor | simpl in Hn; lia].
  - rewrite findall_unfold.
    destruct (Py.drop_while isspace s) as [|c r] eqn:E; [constructor|].
    pose proof (drop_while_head _ _ E) as Hc.
    pose proof (after_match_shorter r Hc) as Hlt.
    pose proof (drop_while_length isspace s) as Hle. rewrite E in Hle.
    constructor.
    + split.
      * simpl. replace (nonspace c) with true by (symmetry; now apply nonspace_true).
        discriminate.
      * apply take_while_all.
    + apply take_while_all.
    + intros Hws. unfold Segmenter.after_match.
      destruct (Py.drop_while nonspace (c :: r)) as [|x r'] eqn:E'.
      * reflexivity.
      * pose proof (drop_while_head _ _ E') as Hx.
        apply nonspace_false in Hx. simpl in Hws. rewrite Hx in Hws. discriminate.
    + apply IH. simpl in *. lia.
Qed.

Lemma findall_ok s : tokens_ok (findall s).
Proof. now apply (findall_ok_len (n := length s)). Qed.


(** *** [strip] on a joined window *)

Lemma rstrip_word w : word w -> rstrip w = w.
Proof.
  intros [Hne Hall]. unfold Segmenter.rstrip.
  destruct (rev w) as [|x r] eqn:E.
  - apply (f_equal (@rev _)) in E. rewrite rev_involutive in E. now subst.
  - rewrite <- forallb_rev, E in Hall. simpl in Hall.
    apply andb_true_iff in Hall as [Hx _]. apply nonspace_true in Hx.
    simpl. rewrite Hx. rewrite <- E. apply rev_involutive.
Qed.

Lemma rstrip_token w ws : word w -> spaces ws -> rstrip (w ++ ws) = w.
Proof.
  intros Hw Hs. unfold Segmenter.rstrip. rewrite rev_app_distr.
  rewrite drop_while_app_all by (now rewrite forallb_rev).
  now apply rstrip_word.
Qed.

Lemma rstrip_app a b : rstrip b <> [] -> rstrip (a ++ b) = a ++ rstrip b.
Proof.
  unfold Segmenter.rstrip. intros H. rewrite rev_app_distr, drop_while_app.
  destruct (Py.drop_while isspace (rev b)) as [|x d]; [now elim H|].
  now rewrite rev_app_distr, rev_involutive.
Qed.

Lemma word_app_nonnil w rest : word w -> w ++ rest <> [].
Proof. intros [Hne _] E. apply app_eq_nil in E as [? _]. contradiction. Qed.

Lemma strip_last_nonnil ts : tokens_ok ts -> ts <> [] -> concat (strip_last isspace ts) <> [].
Proof.
  intros H Hne. destruct H as [|w ws ts Hw Hs Hr Hts]; [congruence|].
  destruct ts as [|t ts].
  - simpl. rewrite (rstrip_token Hw Hs), app_nil_r. now destruct Hw.
  - cbn [Segmenter.strip_last concat]. rewrite <- app_assoc. now apply word_app_nonnil.
Qed.

Lemma rstrip_concat ts : tokens_ok ts ->
  rstrip (concat ts) = concat (strip_last isspace ts).
Proof.
  induction 1 as [|w ws ts Hw Hs Hr Hts IH]; auto.
  destruct ts as [|t ts].
  - simpl. now rewrite !app_nil_r.
  - cbn [Segmenter.strip_last concat] in *.
    rewrite rstrip_app; rewrite IH; auto.
    apply (strip_last_nonnil Hts). discriminate.
Qed.

Lemma strip_last_ok ts : tokens_ok ts -> tokens_ok (strip_last isspace ts).
Proof.
  induction 1 as [|w ws ts Hw Hs Hr Hts IH]; [constructor|].
  destruct ts as [|t ts].
  - simpl. rewrite (rstrip_token Hw Hs).
    rewrite <- (app_nil_r w) at 1. constructor; auto; constructor.
  - cbn [Segmenter.strip_last] in *. constructor; auto.
    intros E. specialize (Hr E). discriminate.
Qed.

Lemma map_rstrip_strip_last ts : tokens_ok ts ->
  map rstrip (strip_last isspace ts) = map rstrip ts.
Proof.
  induction 1 as [|w ws ts Hw Hs Hr Hts IH]; auto.
  destruct ts as [|t ts].
  - simpl. now rewrite (rstrip_token Hw Hs), (rstrip_word Hw).
  - cbn [Segmenter.strip_last map] in *. now rewrite IH.
Qed.

(** The regex tokens of a chunk are the tokens of its window, the last one
    without its trailing whitespace. *)
Lemma findall_chunk ts : tokens_ok ts ->
  findall (strip (join ts)) = strip_last isspace ts.
Proof.
  intros H. unfold Segmenter.strip, Segmenter.lstrip, Segmenter.join.
  rewrite (tokens_ok_lstrip H), (rstrip_concat H).
  apply findall_concat. now apply strip_last_ok.
Qed.

Lemma token_stream_chunk ts : tokens_ok ts ->
  token_stream isspace (strip (join ts)) = map rstrip ts.
Proof.
  intros H. unfold Segmenter.token_stream.
  rewrite (findall_chunk H). now apply map_rstrip_strip_last.
Qed.

Lemma tokens_ok_skipn n : forall ts, tokens_ok ts -> tokens_ok (skipn n ts).
Proof.
  induction n as [|n IH]; intros ts H; auto.
  destruct H; simpl; [constructor | auto].
Qed.

Lemma tokens_ok_firstn ts : tokens_ok ts -> forall n, tokens_ok (firstn n ts).
Proof.
  induction 1 as [|w ws ts Hw Hs Hr Hts IH]; intros n.
  - rewrite firstn_nil. constructor.
  - destruct n; simpl; constructor; auto.
    intros E. rewrite (Hr E). apply firstn_nil.
Qed.

End TokenizerFacts.

Section WindowFacts.
Context {A B : Type}.

Lemma slice_nonneg (l : list A) (lo len : nat) :
  Py.slice l (Z.of_nat lo) (Z.of_nat lo + Z.of_nat len) = firstn len (skipn lo l).
Proof.
  unfold Py.slice, Py.norm_index.
  destruct (Z.ltb_spec (Z.of_nat lo) 0); [lia|].
  destruct (Z.ltb_spec (Z.of_nat lo + Z.of_nat len) 0); [lia|].
  destruct (Nat.le_gt_cases lo (length l)) as [Hlo|Hlo].
  - replace (Z.to_nat (Z.min (Z.of_nat lo) (Z.of_nat (length l)))) with lo by lia.
    destruct (Nat.le_gt_cases (lo + len) (length l)) as [Hhi|Hhi].
    + f_equal. lia.
    + rewrite !firstn_all2; auto; rewrite length_skipn; lia.
  - rewrite !skipn_all2 by lia. now rewrite !firstn_nil.
Qed.

Lemma windows_map (g : A -> B) fuel cs st : forall l,
  windows fuel cs st (map g l) = map (map g) (windows fuel cs st l).
Proof.
  induction fuel as [|f IH]; intros l; auto.
  destruct l as [|x l]; auto.
  cbn [windows map]. rewrite <- IH.
  change (g x :: map g l) with (map g (x :: l)).
  now rewrite firstn_map, skipn_map.
Qed.

Lemma windows_Forall (P : list A -> Prop) fuel cs st :
  (forall l n, P l -> P (firstn n l)) ->
  (forall l n, P l -> P (skipn n l)) ->
  forall l, P l -> Forall P (windows fuel cs st l).
Proof.
  intros Hf Hs. induction fuel as [|f IH]; intros l Hl; [constructor|].
  destruct l as [|x l]; constructor; auto.
Qed.

(** Dropping from every window the [ov] tokens it shares with the previous
    one leaves exactly the tokens after the first [ov]. *)
Lemma windows_telescope ov st fuel : 0 < st -> forall l : list A,
  length l < fuel ->
  flat_map (skipn ov) (windows fuel (ov + st) st l) = skipn ov l.
Proof.
  intros Hst. induction fuel as [|f IH]; intros l Hl; [lia|].
  destruct l as [|x l]; [now rewrite skipn_nil|].
  cbn [windows flat_map]. rewrite IH.
  - rewrite <- (firstn_skipn st (skipn ov (x :: l))).
    rewrite firstn_skipn_comm, !skipn_skipn. f_equal.
    f_equal. lia.
  - rewrite length_skipn. cbn [length] in *. lia.
Qed.

Lemma windows_merge ov st fuel (l : list A) : 0 < st ->
  length l < fuel ->
  merge_streams ov (windows fuel (ov + st) st l) = l.
Proof.
  intros Hst Hl. destruct fuel as [|f]; [lia|].
  destruct l as [|x l]; auto.
  cbn [windows merge_streams].
  rewrite windows_telescope; auto.
  - rewrite skipn_skipn.
    apply firstn_skipn.
  - rewrite length_skipn. cbn [length] in *. lia.
Qed.

End WindowFacts.

Section LoopFacts.
Context {char : Type}.
Variable isspace : char -> bool.

Local Abbreviation chunk_loop := (chunk_loop isspace).
Local Abbreviation strip := (strip isspace).

(** The loop, for a positive step and a window start that is not negative:
    it ends within the fuel and appends one stripped, joined window per
    iteration. *)
Lemma chunk_loop_windows (tokens : list (list char)) (cs st : nat) :
  0 < st -> forall fuel k acc,
  length tokens - k < fuel ->
  chunk_loop fuel tokens (Z.of_nat cs) (Z.of_nat cs - Z.of_nat st)
             (Z.of_nat k) acc
  = Some (acc ++ map (fun w => strip (join w))
                     (windows fuel cs st (skipn k tokens))).
Proof.
  intros Hst. induction fuel as [|f IH]; intros k acc Hf; [lia|].
  cbn [Segmenter.chunk_loop].
  destruct (Z.ltb_spec (Z.of_nat k) (Z.of_nat (length tokens))) as [Hk|Hk].
  - rewrite slice_nonneg.
    replace (Z.of_nat k + (Z.of_nat cs - (Z.of_nat cs - Z.of_nat st)))%Z
      with (Z.of_nat (k + st)) by lia.
    rewrite IH by lia. f_equal. rewrite <- app_assoc. f_equal.
    destruct (skipn k tokens) as [|t r] eqn:E.
    + apply (f_equal (@length _)) in E. rewrite length_skipn in E. simpl in E. lia.
    + cbn [windows map app]. rewrite <- E, skipn_skipn.
      now replace (st + k) with (k + st) by lia.
  - rewrite skipn_all2 by lia. simpl. now rewrite app_nil_r.
Qed.

(** Without progress the window start stays below the token count. *)
Lemma chunk_loop_diverges (tokens : list (list char)) cs ov :
  (cs <= ov)%Z -> forall fuel i acc,
  (i < Z.of_nat (length tokens))%Z ->
  chunk_loop fuel tokens cs ov i acc = None.
Proof.
  intros Hst. induction fuel as [|f IH]; intros i acc Hi; auto.
  cbn [Segmenter.chunk_loop].
  destruct (Z.ltb_spec i (Z.of_nat (length tokens))); [|lia].
  apply IH. lia.
Qed.

Lemma chunk_loop_terminates (tokens : list (list char)) cs ov :
  (ov < cs)%Z -> forall fuel i acc,
  (Z.max 0 (Z.of_nat (length tokens) - i) < Z.of_nat fuel)%Z ->
  exists r, chunk_loop fuel tokens cs ov i acc = Some r.
Proof.
  intros Hst. induction fuel as [|f IH]; intros i acc Hf.
  - lia.
  - cbn [Segmenter.chunk_loop].
    destruct (Z.ltb_spec i (Z.of_nat (length tokens))); [|now exists acc].
    apply IH. lia.
Qed.

Lemma chunk_loop_more_fuel (tokens : list (list char)) cs ov r :
  forall fuel fuel' i acc, fuel <= fuel' ->
  chunk_loop fuel tokens cs ov i acc = Some r ->
  chunk_loop fuel' tokens cs ov i acc = Some r.
Proof.
  induction fuel as [|f IH]; intros fuel' i acc Hle H; [discriminate|].
  destruct fuel' as [|f']; [lia|].
  cbn [Segmenter.chunk_loop] in *.
  destruct (i <? Z.of_nat (length tokens))%Z; auto.
  apply IH; auto. lia.
Qed.

(** [chunk_text] decides termination: the call returns [r] for some amount
    of fuel exactly when [chunk_text] gives [r]. *)
Lemma chunk_text_adequate (text : list char) cs ov r :
  (exists fuel, chunk_text_fuel isspace fuel text cs ov = Some r) <->
  chunk_text isspace text cs ov = Some r.
Proof.
  unfold Segmenter.chunk_text, Segmenter.chunk_text_fuel. split.
  - intros [fuel H]. set (tokens := findall isspace text) in *.
    destruct (Z.lt_ge_cases ov cs) as [Hlt|Hge].
    + destruct (@chunk_loop_terminates tokens cs ov Hlt (S (length tokens)) 0%Z [])
        as [r' Hr']; [lia|].
      rewrite Hr'. f_equal.
      pose proof (@chunk_loop_more_fuel tokens cs ov r fuel
                    (Nat.max fuel (S (length tokens))) 0%Z [] (Nat.le_max_l _ _) H) as H1.
      pose proof (@chunk_loop_more_fuel tokens cs ov r' (S (length tokens))
                    (Nat.max fuel (S (length tokens))) 0%Z [] (Nat.le_max_r _ _) Hr') as H2.
      congruence.
    + destruct tokens as [|t ts] eqn:E.
      * destruct fuel; [discriminate|]. simpl in *. auto.
      * rewrite chunk_loop_diverges in H; [discriminate | lia | simpl; lia].
  - intros H. eauto.
Qed.

End LoopFacts.

Section SplitFacts.
Context {char : Type}.
Variable isspace : char -> bool.
Local Abbreviation str := (list char).
Local Abbreviation split_ws_loop := (split_ws_loop isspace).
Local Abbreviation split_ws := (split_ws isspace).

Lemma concat_findall_len n : forall s : str, length s <= n ->
  concat (findall isspace s) = lstrip isspace s.
Proof.
  induction n as [|n IH]; intros s Hn.
  - destruct s; [reflexivity | simpl in Hn; lia].
  - rewrite findall_unfold. unfold Segmenter.lstrip.
    destruct (Py.drop_while isspace s) as [|c r] eqn:E; [reflexivity|].
    pose proof (drop_while_head _ _ E) as Hc.
    pose proof (@after_match_shorter _ isspace c r Hc) as Hlt.
    pose proof (drop_while_length isspace s) as Hle. rewrite E in Hle.
    cbn [concat]. rewrite IH by (cbn [length] in *; lia).
    unfold Segmenter.lstrip, Segmenter.after_match.
    assert (Hidem : forall l : str,
               Py.drop_while isspace (Py.drop_while isspace l)
               = Py.drop_while isspace l).
    { intros l. destruct (Py.drop_while isspace l) as [|x l'] eqn:El; auto.
      simpl. now rewrite (drop_while_head _ _ El). }
    rewrite Hidem, <- app_assoc.
    rewrite (take_drop_while isspace), (take_drop_while (nonspace isspace)).
    reflexivity.
Qed.

Lemma concat_findall (s : str) : concat (findall isspace s) = lstrip isspace s.
Proof. now apply (concat_findall_len (n := length s)). Qed.

Lemma split_ws_loop_word (w : str) : forall cur rest,
  forallb (nonspace isspace) w = true ->
  split_ws_loop cur (w ++ rest) = split_ws_loop (rev w ++ cur) rest.
Proof.
  induction w as [|c w IH]; intros cur rest H; [reflexivity|].
  simpl in H. apply andb_true_iff in H as [Hc Hw].
  apply nonspace_true in Hc. cbn [app Segmenter.split_ws_loop]. rewrite Hc.
  rewrite IH by assumption. cbn [rev]. now rewrite <- app_assoc.
Qed.

Lemma split_ws_loop_spaces (ws : str) : forall rest,
  forallb isspace ws = true ->
  split_ws_loop [] (ws ++ rest) = split_ws_loop [] rest.
Proof.
  induction ws as [|c ws IH]; intros rest H; [reflexivity|].
  simpl in H. apply andb_true_iff in H as [Hc Hw].
  cbn [app Segmenter.split_ws_loop]. rewrite Hc. now apply IH.
Qed.

Lemma split_ws_tokens ts : tokens_ok isspace ts ->
  split_ws (concat ts) = map (rstrip isspace) ts.
Proof.
  induction 1 as [|w ws ts Hw Hs Hr Hts IH]; [reflexivity|].
  cbn [concat map]. rewrite (rstrip_token Hw Hs). unfold Segmenter.split_ws.
  rewrite <- app_assoc, split_ws_loop_word by (now destruct Hw).
  rewrite app_nil_r.
  assert (Hrev : rev w <> []).
  { destruct Hw as [Hne _]. intros E. apply Hne.
    apply (f_equal (@rev _)) in E. now rewrite rev_involutive in E. }
  destruct ws as [|c ws].
  - rewrite (Hr eq_refl). cbn. destruct (rev w) eqn:E; [congruence|].
    rewrite <- E, rev_involutive. reflexivity.
  - simpl in Hs. apply andb_true_iff in Hs as [Hc Hs].
    cbn [app Segmenter.split_ws_loop]. rewrite Hc.
    destruct (rev w) eqn:E; [congruence|]. rewrite <- E, rev_involutive.
    f_equal. rewrite split_ws_loop_spaces by assumption. exact IH.
Qed.

(** The token stream of a string is what [s.split()] returns. *)
Lemma token_stream_split (s : str) : token_stream isspace s = split_ws s.
Proof.
  unfold Segmenter.token_stream.
  rewrite <- (split_ws_tokens (findall_ok isspace s)), concat_findall.
  unfold Segmenter.lstrip, Segmenter.split_ws.
  rewrite <- (take_drop_while isspace s) at 2.
  now rewrite split_ws_loop_spaces by apply take_while_all.
Qed.

End SplitFacts.

Section SegmenterProperties.
Context {char : Type}.
Variable isspace : char -> bool.
Local Abbreviation str := (list char).

Lemma chunk_text_windows (text : str) (cs st : nat) :
  0 < st ->
  chunk_text isspace text (Z.of_nat cs) (Z.of_nat cs - Z.of_nat st) =
  Some (map (fun w => strip isspace (join w))
            (windows (S (length (findall isspace text))) cs st (findall isspace text))).
Proof.
  intros Hst. unfold Segmenter.chunk_text, Segmenter.chunk_text_fuel.
  change 0%Z with (Z.of_nat 0).
  rewrite (@chunk_loop_windows _ isspace (findall isspace text) cs st Hst
             (S (length (findall isspace text))) 0 []) by lia.
  reflexivity.
Qed.

Lemma chunk_text_windows_Z (text : str) (cs ov : Z) :
  (0 < cs)%Z -> (0 <= ov < cs)%Z ->
  chunk_text isspace text cs ov =
  Some (map (fun w => strip isspace (join w))
            (windows (S (length (findall isspace text)))
                     (Z.to_nat ov + Z.to_nat (cs - ov)) (Z.to_nat (cs - ov))
                     (findall isspace text))).
Proof.
  intros Hcs Hov.
  assert (Hst : 0 < Z.to_nat (cs - ov)) by lia.
  pose proof (chunk_text_windows text (Z.to_nat ov + Z.to_nat (cs - ov)) Hst) as H.
  replace (Z.of_nat (Z.to_nat ov + Z.to_nat (cs - ov))) with cs in H by lia.
  replace (cs - Z.of_nat (Z.to_nat (cs - ov)))%Z with ov in H by lia.
  exact H.
Qed.

Lemma token_stream_windows (ts : list str) fuel cs st :
  tokens_ok isspace ts ->
  map (token_stream isspace)
      (map (fun w => strip isspace (join w)) (windows fuel cs st ts))
  = windows fuel cs st (map (rstrip isspace) ts).
Proof.
  intros Hts. rewrite map_map, windows_map.
  apply map_ext_in. intros w Hw.
  apply token_stream_chunk.
  pose proof (@windows_Forall _ (tokens_ok isspace) fuel cs st
                (fun l n H => tokens_ok_firstn H n)
                (fun l n H => tokens_ok_skipn n H) ts Hts) as HF.
  rewrite Forall_forall in HF. now apply HF.
Qed.

(** C1. For every text, every [chunk_size > 0] and every overlap with
    [0 <= overlap < chunk_size], the segmenter returns, and the token
    streams of its chunks, concatenated with the [overlap] tokens each chunk
    repeats from its predecessor dropped, are the token sequence of the text
    in order. *)
Theorem chunk_text_reconstructs (text : str) (chunk_size overlap : Z) :
  (0 < chunk_size)%Z -> (0 <= overlap < chunk_size)%Z ->
  exists chunks,
    chunk_text isspace text chunk_size overlap = Some chunks /\
    merge_streams (Z.to_nat overlap) (map (token_stream isspace) chunks)
    = token_stream isspace text.
Proof.
  intros Hcs Hov.
  rewrite (chunk_text_windows_Z text Hcs Hov).
  eexists; split; [reflexivity|].
  rewrite (token_stream_windows _ _ _ (findall_ok isspace text)).
  unfold Segmenter.token_stream.
  apply windows_merge; [lia|]. rewrite length_map. lia.
Qed.

(** The same windows, read with the tokenizer's own matches: every chunk is
    its window of tokens with only the last token's trailing whitespace
    removed, and no chunk is empty. *)
Lemma chunk_text_chunks (text : str) (chunk_size overlap : Z) chunks :
  (0 < chunk_size)%Z -> (0 <= overlap < chunk_size)%Z ->
  chunk_text isspace text chunk_size overlap = Some chunks ->
  Forall (fun c => c <> []) chunks.
Proof.
  intros Hcs Hov.
  rewrite (chunk_text_windows_Z text Hcs Hov).
  set (ov := Z.to_nat overlap). set (st := Z.to_nat (chunk_size - overlap)).
  assert (Hst : 0 < st) by (unfold st; lia).
  intros H; inversion H; subst chunks; clear H.
  apply Forall_map.
  assert (HF : Forall (fun w => tokens_ok isspace w /\ w <> [])
                 (windows (S (length (findall isspace text))) (ov + st) st
                          (findall isspace text))).
  { generalize (findall_ok isspace text).
    generalize (S (length (findall isspace text))) as fuel.
    generalize (findall isspace text) as ts.
    intros ts fuel. revert ts.
    induction fuel as [|f IH]; intros ts Hts; [constructor|].
    destruct ts as [|t ts]; constructor.
    - split; [now apply tokens_ok_firstn|].
      replace (ov + st) with (S (ov + st - 1)) by lia. discriminate.
    - apply IH. now apply tokens_ok_skipn. }
  eapply Forall_impl; [|exact HF].
  intros w [Hw Hne]. unfold Segmenter.strip, Segmenter.lstrip, Segmenter.join.
  rewrite (tokens_ok_lstrip Hw), (rstrip_concat Hw).
  now apply strip_last_nonnil.
Qed.

(** C2, as the code has it.  The segmenter checks nothing about its
    arguments and raises nothing: with [chunk_size > 0] and
    [overlap >= chunk_size], a text without tokens gives the empty sequence,
    and for a text with a token the loop condition stays true however long
    the loop runs, so the call does not return. *)
Theorem chunk_text_no_progress (text : str) (chunk_size overlap : Z) :
  (0 < chunk_size)%Z -> (chunk_size <= overlap)%Z ->
  (forall e, chunk_text_call isspace text chunk_size overlap <> Py.Raised e) /\
  (findall isspace text = [] ->
   chunk_text_call isspace text chunk_size overlap = Py.Returned []) /\
  (findall isspace text <> [] ->
   chunk_text_call isspace text chunk_size overlap = Py.Diverged /\
   forall fuel, chunk_text_fuel isspace fuel text chunk_size overlap = None).
Proof.
  intros _ Hle. unfold Segmenter.chunk_text_call. split; [|split].
  - intros e. destruct (chunk_text isspace text chunk_size overlap); discriminate.
  - unfold Segmenter.chunk_text, Segmenter.chunk_text_fuel. now intros ->.
  - intros Hne.
    assert (H : forall fuel,
               chunk_text_fuel isspace fuel text chunk_size overlap = None).
    { intros fuel. apply chunk_loop_diverges; auto.
      destruct (findall isspace text); [congruence | simpl; lia]. }
    split; auto. unfold Segmenter.chunk_text. now rewrite H.
Qed.
(** A string of whitespace only has no tokens, so it has no chunks,
    whatever the window parameters. *)
Lemma chunk_text_whitespace (text : str) (chunk_size overlap : Z) :
  forallb isspace text = true ->
  chunk_text isspace text chunk_size overlap = Some [].
Proof.
  intros H. unfold Segmenter.chunk_text, Segmenter.chunk_text_fuel.
  now rewrite findall_spaces by exact H.
Qed.

End SegmenterProperties.

(** C1 at a text of seven tokens, windows of 3 overlapping by 1. *)
Lemma chunk_text_reconstructs_witness :
  (0 < 3)%Z /\ (0 <= 1 < 3)%Z /\
  exists chunks,
    chunk_text Py.isspace (Py.lit "  a b  c d e f g ") 3 1 = Some chunks /\
    merge_streams (Z.to_nat 1) (map (token_stream Py.isspace) chunks)
    = token_stream Py.isspace (Py.lit "  a b  c d e f g ").
Proof.
  split; [lia | split; [lia |]].
  apply (chunk_text_reconstructs Py.isspace (Py.lit "  a b  c d e f g ")); lia.
Defined.

(** C2 fails on the code: with [overlap = chunk_size = 1] the empty text is
    segmented into no chunk, without any exception, and on a text of two
    tokens the loop never ends. *)
Lemma chunk_text_overlap_not_rejected :
  chunk_text_call Py.isspace [] 1 1 = Py.Returned [] /\
  chunk_text_call Py.isspace (Py.lit "a b") 1 1 = Py.Diverged /\
  forall fuel, chunk_text_fuel Py.isspace fuel (Py.lit "a b") 1 1 = None.
Proof.
  split; [reflexivity | split; [reflexivity |]].
  intros fuel. apply chunk_loop_diverges; [lia | simpl; lia].
Qed.

(** C2, as the code has it, at a text of two tokens with
    [overlap = chunk_size = 1]. *)
Lemma chunk_text_no_progress_witness :
  (0 < 1)%Z /\ (1 <= 1)%Z /\
  (forall e, chunk_text_call Py.isspace (Py.lit "a b") 1 1 <> Py.Raised e) /\
  (findall Py.isspace (Py.lit "a b") = [] ->
   chunk_text_call Py.isspace (Py.lit "a b") 1 1 = Py.Returned []) /\
  (findall Py.isspace (Py.lit "a b") <> [] ->
   chunk_text_call Py.isspace (Py.lit "a b") 1 1 = Py.Diverged /\
   forall fuel, chunk_text_fuel Py.isspace fuel (Py.lit "a b") 1 1 = None).
Proof.
  split; [lia | split; [lia |]].
  apply (chunk_text_no_progress Py.isspace (Py.lit "a b")); lia.
Defined.

End SegmenterFacts.

Module VectorStoreFacts.
Import Py PyFacts VectorStore.

Section WithCollaborators.

Variable collection_query :
  collection -> list vector -> Z -> result query_out.
Variable encode : list str -> result (list vector).

Local Abbreviation query := (query collection_query encode).




End WithCollaborators.


Example demo_query_two :
  option_map (@length hit)
    (match query Demo.collection_query Demo.encode Demo.two_entries (lit "what?") 5 with
     | Ok results => Some results
     | Raise _ => None
     end) = Some 2.
Proof. reflexivity. Qed.

(** A metadata item that is present is handed on as it is, also when it
    is [None]. *)
Example query_keeps_null_metadata :
  query (fun _ _ _ => Ok {| documents := Some [[VStr (lit "first")]];
                            metadatas := Some [[VNone]];
                            distances := None |})
        Demo.encode [] (lit "what?") 5
  = Ok [ {| text := VStr (lit "first"); meta := VNone; score := 1%float |} ].
Proof. reflexivity. Qed.


End VectorStoreFacts.

Module IngestFacts.
Import Py PyFacts VectorStore Ingest.

Lemma zip3_metadata ids : forall texts metas,
  length ids = length metas -> length texts = length metas ->
  map entry_metadata (zip3 ids texts metas) = metas.
Proof.
  induction ids as [|i ids IH]; intros [|t texts] [|m metas] H1 H2;
    simpl in *; try discriminate; auto.
  f_equal. apply IH; lia.
Qed.

Lemma zip3_document ids : forall texts metas,
  length ids = length texts -> length metas = length texts ->
  map entry_document (zip3 ids texts metas) = texts.
Proof.
  induction ids as [|i ids IH]; intros [|t texts] [|m metas] H1 H2;
    simpl in *; try discriminate; auto.
  f_equal. apply IH; lia.
Qed.

Lemma zip3_id ids : forall texts metas,
  length texts = length ids -> length metas = length ids ->
  map entry_id (zip3 ids texts metas) = ids.
Proof.
  induction ids as [|i ids IH]; intros [|t texts] [|m metas] H1 H2;
    simpl in *; try discriminate; auto.
  f_equal. apply IH; lia.
Qed.

(** The default window always ends the loop. *)
Lemma segment_total (text : str) :
  exists chunks, Segmenter.chunk_text isspace text 800 120 = Some chunks.
Proof.
  eexists. apply SegmenterFacts.chunk_text_windows_Z; lia.
Qed.

(** *** Strings and metadata *)

Lemma chunk_indexes_app full a b :
  chunk_indexes full (a ++ b) = chunk_indexes full a ++ chunk_indexes full b.
Proof. unfold chunk_indexes. now rewrite filter_app, map_app. Qed.

Lemma chunk_indexes_same full (l : list nat) :
  chunk_indexes full (map (chunk_meta full) l)
  = map (fun i => Some (VInt (Z.of_nat i))) l.
Proof.
  unfold chunk_indexes. induction l as [|i l IH]; auto.
  cbn [map filter]. unfold from_source at 1.
  cbn. rewrite str_eqb_refl. cbn [map]. f_equal. exact IH.
Qed.

Lemma chunk_indexes_other full g (l : list nat) :
  g <> full -> chunk_indexes full (map (chunk_meta g) l) = [].
Proof.
  intros Hne. unfold chunk_indexes. induction l as [|i l IH]; auto.
  cbn [map filter]. unfold from_source at 1. cbn.
  destruct (str_eqb g full) eqn:E; [apply str_eqb_eq in E; contradiction|].
  exact IH.
Qed.

(** *** Ids *)

(** The numeral after the last dash of an id tells the index. *)
Lemma id_suffix_inj (h1 h2 : str) i j :
  h1 ++ lit "-" ++ str_of_nat i = h2 ++ lit "-" ++ str_of_nat j -> i = j.
Proof.
  intros H. apply str_of_nat_inj.
  assert (Hsuf : forall (h : str) n,
             Py.take_while (fun c => negb (Ascii.eqb c "-"))
                           (rev (h ++ lit "-" ++ str_of_nat n))
             = rev (str_of_nat n)).
  { intros h n. rewrite !rev_app_distr, <- app_assoc.
    rewrite take_while_app_all.
    - change (rev (lit "-")) with ["-"%char]. cbn [app Py.take_while].
      cbn. now rewrite app_nil_r.
    - unfold str_of_nat. rewrite forallb_rev. apply digits_no_dash. }
  apply (f_equal (@rev _)) in H.
  apply (f_equal (Py.take_while (fun c => negb (Ascii.eqb c "-")))) in H.
  rewrite !Hsuf in H.
  apply (f_equal (@rev _)) in H. now rewrite !rev_involutive in H.
Qed.

Section WithCollaborators.

Variable extract_text_from_pdf : str -> result str.
Variable encode : list str -> result (list vector).
Variable collection_add_error :
  collection -> list str -> list str -> list value -> option exn.
Variable uuid4_hex : nat -> str.

Local Abbreviation ingest_file :=
  (ingest_file extract_text_from_pdf encode collection_add_error uuid4_hex).
Local Abbreviation ingest_files :=
  (ingest_files extract_text_from_pdf encode collection_add_error uuid4_hex).
Local Abbreviation ingest_names :=
  (ingest_names extract_text_from_pdf encode collection_add_error uuid4_hex).
Local Abbreviation ingest_walk :=
  (ingest_walk extract_text_from_pdf encode collection_add_error uuid4_hex).
Local Abbreviation ingest_folder :=
  (ingest_folder extract_text_from_pdf encode collection_add_error uuid4_hex).
Local Abbreviation doc_chunks := (doc_chunks extract_text_from_pdf).
Local Abbreviation doc_metas := (doc_metas extract_text_from_pdf).
Local Abbreviation make_ids := (make_ids uuid4_hex).
Local Abbreviation after_file := (after_file extract_text_from_pdf uuid4_hex).
Local Abbreviation fails_with :=
  (fails_with extract_text_from_pdf encode collection_add_error uuid4_hex).

Lemma make_ids_length first n : length (make_ids first n) = n.
Proof. unfold Ingest.make_ids. now rewrite length_map, length_seq. Qed.

Lemma doc_metas_length full : length (doc_metas full) = length (doc_chunks full).
Proof. unfold Ingest.doc_metas. now rewrite length_map, length_seq. Qed.

Lemma segment_doc full text :
  extract_text_from_pdf full = Ok text ->
  Segmenter.chunk_text_call isspace text 800 120 = Returned (doc_chunks full).
Proof.
  intros E. unfold Ingest.doc_chunks, Segmenter.chunk_text_call. rewrite E.
  destruct (segment_total text) as [chunks ->]. reflexivity.
Qed.

(** *** One file *)

Lemma ingest_file_ok cb full total w text :
  extract_text_from_pdf full = Ok text ->
  (doc_chunks full <> [] -> exists vecs, encode (doc_chunks full) = Ok vecs) ->
  collection_add_error (store w)
    (make_ids (uuid_calls w) (length (doc_chunks full)))
    (doc_chunks full) (doc_metas full) = None ->
  ingest_file cb full total w
  = (Returned (total + length (doc_chunks full)), after_file cb full w).
Proof.
  intros Ex Hen Hadd.
  unfold Ingest.ingest_file, Ingest.mbind, Ingest.notify, Ingest.lift,
    Ingest.segment, Ingest.after_file.
  assert (Hseg := segment_doc Ex).
  destruct cb; cbn [fst snd]; rewrite Ex, Hseg;
    (destruct (doc_chunks full) as [|c chunks] eqn:Ec;
     [ unfold Ingest.ret; cbn [length zip3 Ingest.store Ingest.uuid_calls Ingest.progress];
       rewrite Nat.add_0_r; f_equal; destruct w; cbn; now rewrite ?app_nil_r, ?Nat.add_0_r
     | destruct Hen as [vecs Hv]; [discriminate|]; rewrite Hv;
       unfold Ingest.fresh_ids, Ingest.commit, VectorStore.add, Ingest.ret;
       cbn [Ingest.store Ingest.uuid_calls Ingest.progress];
       unfold Ingest.doc_metas in Hadd; rewrite Ec in Hadd; rewrite Hadd;
       unfold Ingest.doc_metas; rewrite Ec; reflexivity ]).
Qed.

(** Whatever a file comes to, the collection only grows, and what it grows
    by is one batch under the ids just made. *)
Lemma ingest_file_store cb full total w :
  exists n,
    store (snd (ingest_file cb full total w))
    = store w ++ zip3 (make_ids (uuid_calls w) n)
                      (firstn n (doc_chunks full)) (firstn n (doc_metas full)) /\
    (n = 0 \/ n = length (doc_chunks full)).
Proof.
  unfold Ingest.ingest_file, Ingest.mbind, Ingest.notify, Ingest.lift,
    Ingest.segment.
  assert (Hskip : forall c : collection,
             c = c ++ zip3 (make_ids (uuid_calls w) 0)
                           (firstn 0 (doc_chunks full)) (firstn 0 (doc_metas full)))
    by (intros c; simpl; now rewrite app_nil_r).
  destruct (extract_text_from_pdf full) as [text|e] eqn:Ex.
  2:{ exists 0. split; [|auto]. destruct cb; cbn; apply Hskip. }
  rewrite (segment_doc Ex).
  destruct (doc_chunks full) as [|c chunks] eqn:Ec.
  { exists 0. split; [|auto]. destruct cb; cbn; now rewrite app_nil_r. }
  destruct (encode (c :: chunks)) as [vecs|e] eqn:Een.
  2:{ exists 0. split; [|auto]. destruct cb; cbn; now rewrite app_nil_r. }
  unfold Ingest.fresh_ids, Ingest.commit, VectorStore.add, Ingest.ret.
  destruct cb; cbn [fst snd Ingest.store Ingest.uuid_calls Ingest.progress];
    match goal with
    | |- context [collection_add_error ?a ?b ?c ?d] =>
        destruct (collection_add_error a b c d) eqn:Ead
    end; cbn [fst snd Ingest.store];
    try (exists 0; split; [now rewrite app_nil_r | auto]);
    (exists (length (c :: chunks)); split; [|auto];
     rewrite firstn_all;
     replace (length (c :: chunks)) with (length (doc_metas full))
       by (rewrite doc_metas_length, Ec; reflexivity);
     rewrite firstn_all; unfold Ingest.doc_metas; rewrite Ec;
     rewrite length_map, length_seq; reflexivity).
Qed.


Lemma ingest_file_fails cb full total w e :
  fails_with full w e ->
  exists w', ingest_file cb full total w = (Raised e, w') /\
             store w' = store w /\ uuid_calls w' >= uuid_calls w.
Proof.
  intros Hf.
  unfold Ingest.ingest_file, Ingest.mbind, Ingest.notify, Ingest.lift,
    Ingest.segment.
  destruct Hf as [Ex | [text Ex] Hne Hen | [text Ex] Hne [vecs Hen] Hadd].
  - rewrite Ex. destruct cb; eexists; (split; [reflexivity | cbn; auto]).
  - rewrite Ex, (segment_doc Ex).
    destruct (doc_chunks full) as [|c chunks] eqn:Ec; [congruence|].
    rewrite Hen. destruct cb; eexists; (split; [reflexivity | cbn; auto]).
  - rewrite Ex, (segment_doc Ex).
    unfold Ingest.doc_metas in Hadd.
    destruct (doc_chunks full) as [|c chunks] eqn:Ec; [congruence|].
    rewrite Hen.
    unfold Ingest.fresh_ids, Ingest.commit, VectorStore.add.
    destruct cb; cbn [fst snd Ingest.store Ingest.uuid_calls Ingest.progress];
      rewrite Hadd; eexists; (split; [reflexivity | cbn; split; auto; lia]).
Qed.

(** *** The loops *)

Lemma ingest_files_app cb pre post total w :
  ingest_files cb (pre ++ post) total w
  = mbind (ingest_files cb pre total) (ingest_files cb post) w.
Proof.
  revert total w. induction pre as [|f pre IH]; intros total w.
  - reflexivity.
  - cbn [app Ingest.ingest_files]. unfold Ingest.mbind.
    destruct (ingest_file cb f total w) as [[t| e |] w']; auto.
Qed.

Lemma ingest_names_files cb root names : forall total w,
  ingest_names cb root names total w
  = ingest_files cb (map (path_join root) (filter is_pdf names)) total w.
Proof.
  induction names as [|name names IH]; intros total w; [reflexivity|].
  cbn [Ingest.ingest_names filter]. destruct (is_pdf name).
  - cbn [map Ingest.ingest_files]. unfold Ingest.mbind.
    destruct (ingest_file cb (path_join root name) total w) as [[t| e |] w']; auto.
  - unfold Ingest.mbind, Ingest.ret. apply IH.
Qed.

Lemma ingest_walk_files cb walk : forall total w,
  ingest_walk cb walk total w = ingest_files cb (pdf_files walk) total w.
Proof.
  induction walk as [|[root names] walk IH]; intros total w; [reflexivity|].
  cbn [Ingest.ingest_walk Ingest.pdf_files flat_map fst snd].
  rewrite ingest_files_app. unfold Ingest.mbind.
  rewrite ingest_names_files.
  destruct (ingest_files cb (map (path_join root) (filter is_pdf names)) total w)
    as [[t| e |] w']; auto.
Qed.

Lemma ingest_files_store cb files : forall total w,
  exists added, store (snd (ingest_files cb files total w)) = store w ++ added.
Proof.
  induction files as [|f files IH]; intros total w.
  - exists []. cbn. now rewrite app_nil_r.
  - cbn [Ingest.ingest_files]. unfold Ingest.mbind.
    destruct (ingest_file_store cb f total w) as (n & Hs & _).
    destruct (ingest_file cb f total w) as [[t| e |] w'] eqn:E; cbn [snd] in *;
      try (eexists; exact Hs).
    destruct (IH t w') as [added' Ha]. rewrite Ha, Hs, <- app_assoc.
    eexists; reflexivity.
Qed.

Lemma ingest_files_ok cb files :
  (forall full, In full files -> exists text, extract_text_from_pdf full = Ok text) ->
  (forall full, In full files -> exists vecs, encode (doc_chunks full) = Ok vecs) ->
  (forall c ids texts metas, collection_add_error c ids texts metas = None) ->
  forall total w,
  exists w' added,
    ingest_files cb files total w
    = (Returned (total + list_sum (map (fun f => length (doc_chunks f)) files)), w') /\
    store w' = store w ++ added /\
    map entry_metadata added = flat_map doc_metas files /\
    map entry_document added = flat_map doc_chunks files.
Proof.
  intros Hex Hen Hadd. induction files as [|f files IH]; intros total w.
  - exists w, []. cbn. rewrite Nat.add_0_r, app_nil_r. auto.
  - destruct (Hex f (or_introl eq_refl)) as [text Ex].
    cbn [Ingest.ingest_files]. unfold Ingest.mbind.
    rewrite (@ingest_file_ok cb f total w text Ex
               (fun _ => Hen f (or_introl eq_refl)) (Hadd _ _ _ _)).
    destruct (IH (fun g Hg => Hex g (or_intror Hg))
                 (fun g Hg => Hen g (or_intror Hg))
                 (total + length (doc_chunks f)) (after_file cb f w))
      as (w' & added & Hrun & Hst & Hm & Hd).
    exists w', (zip3 (make_ids (uuid_calls w) (length (doc_chunks f)))
                     (doc_chunks f) (doc_metas f) ++ added).
    rewrite Hrun. cbn [flat_map].
    change (list_sum (map (fun f => length (doc_chunks f)) (f :: files)))
      with (length (doc_chunks f)
            + list_sum (map (fun f => length (doc_chunks f)) files)).
    split; [now rewrite Nat.add_assoc|].
    split; [rewrite Hst; cbn [Ingest.after_file Ingest.store]; now rewrite app_assoc|].
    rewrite !map_app, Hm, Hd.
    rewrite zip3_metadata, zip3_document;
      rewrite ?make_ids_length, ?doc_metas_length; auto.
Qed.


Lemma make_ids_NoDup first n : NoDup (make_ids first n).
Proof.
  unfold Ingest.make_ids. apply NoDup_map_NoDup_ForallPairs; [|apply seq_NoDup].
  intros i j _ _ H. exact (id_suffix_inj _ _ _ _ H).
Qed.

Lemma chunk_indexes_docs full files :
  NoDup files -> In full files ->
  chunk_indexes full (flat_map doc_metas files)
  = map (fun i => Some (VInt (Z.of_nat i))) (seq 0 (length (doc_chunks full))).
Proof.
  assert (Hout : forall fs, ~ In full fs ->
                 chunk_indexes full (flat_map doc_metas fs) = []).
  { induction fs as [|g fs IH]; intros Hn; auto.
    cbn [flat_map]. rewrite chunk_indexes_app, IH by (intros ?; apply Hn; now right).
    unfold Ingest.doc_metas. rewrite chunk_indexes_other; auto.
    intros ->. apply Hn. now left. }
  induction files as [|g files IH]; intros Hnd Hin; [contradiction|].
  inversion Hnd as [|? ? Hg Hnd']; subst.
  cbn [flat_map]. rewrite chunk_indexes_app.
  destruct Hin as [->|Hin].
  - rewrite (Hout files Hg), app_nil_r. unfold Ingest.doc_metas.
    apply chunk_indexes_same.
  - rewrite IH by assumption. unfold Ingest.doc_metas at 1.
    rewrite chunk_indexes_other; auto.
    intros ->. contradiction.
Qed.

(** C3. When every collaborator succeeds, [ingest_folder] returns the sum
    of the chunk counts of the documents it meets, and what it adds to the
    collection carries, document by document and in order, the chunks and
    the metadata [{source, chunk_index}] with [chunk_index] running over
    [0 .. k-1]: for a document of [k] chunks the indexes written under its
    path are exactly [0, 1, .., k-1], each once. *)
Theorem ingest_folder_total walk cb w :
  (forall full, In full (pdf_files walk) ->
     exists text, extract_text_from_pdf full = Ok text) ->
  (forall full, In full (pdf_files walk) ->
     exists vecs, encode (doc_chunks full) = Ok vecs) ->
  (forall c ids texts metas, collection_add_error c ids texts metas = None) ->
  NoDup (pdf_files walk) ->
  exists w' added,
    ingest_folder walk cb w
    = (Returned (list_sum (map (fun f => length (doc_chunks f)) (pdf_files walk))), w') /\
    store w' = store w ++ added /\
    map entry_document added = flat_map doc_chunks (pdf_files walk) /\
    map entry_metadata added = flat_map doc_metas (pdf_files walk) /\
    forall full, In full (pdf_files walk) ->
      chunk_indexes full (map entry_metadata added)
      = map (fun i => Some (VInt (Z.of_nat i))) (seq 0 (length (doc_chunks full))).
Proof.
  intros Hex Hen Hadd Hnd.
  destruct (@ingest_files_ok cb (pdf_files walk) Hex Hen Hadd 0 w)
    as (w' & added & Hrun & Hst & Hm & Hd).
  exists w', added. unfold Ingest.ingest_folder. rewrite ingest_walk_files, Hrun.
  repeat split; auto.
  intros full Hin. rewrite Hm. now apply chunk_indexes_docs.
Qed.

(** C4. When the files before [full] are ingested and [full] then fails, in
    extraction, in the embedding request or in the commit, with exception
    [e], the whole call ends with that same [e]; no later file is looked
    at, and the collection is the one those earlier files left, which
    extends the collection the call started with. *)
Theorem ingest_folder_fail_fast walk cb w pre full post n w1 e :
  pdf_files walk = pre ++ full :: post ->
  ingest_files cb pre 0 w = (Returned n, w1) ->
  fails_with full w1 e ->
  exists w2 added,
    ingest_folder walk cb w = (Raised e, w2) /\
    store w2 = store w1 /\
    store w1 = store w ++ added.
Proof.
  intros Hsplit Hpre Hfail.
  destruct (ingest_file_fails cb n Hfail) as (w2 & Hrun & Hst & _).
  destruct (ingest_files_store cb pre 0 w) as [added Hadded].
  rewrite Hpre in Hadded. cbn [snd] in Hadded.
  exists w2, added. split; [|auto].
  unfold Ingest.ingest_folder.
  rewrite ingest_walk_files, Hsplit, ingest_files_app.
  unfold Ingest.mbind at 1. rewrite Hpre.
  cbn [Ingest.ingest_files]. unfold Ingest.mbind. now rewrite Hrun.
Qed.

(** C9. A text that is not empty and holds only whitespace is segmented
    into no chunk, as the empty text is, for every window; a file with such
    a text is passed over: the call goes on with the same total, the
    same collection and no id drawn, whatever the embedding provider and
    the collection would have done. *)
Theorem whitespace_document_skipped cb full total w text :
  text <> [] -> forallb isspace text = true ->
  extract_text_from_pdf full = Ok text ->
  (forall chunk_size overlap,
     Segmenter.chunk_text isspace text chunk_size overlap = Some [] /\
     Segmenter.chunk_text isspace [] chunk_size overlap = Some []) /\
  exists w',
    ingest_file cb full total w = (Returned total, w') /\
    store w' = store w /\ uuid_calls w' = uuid_calls w.
Proof.
  intros _ Hws Ex. split.
  - intros cs ov. split; apply SegmenterFacts.chunk_text_whitespace; auto.
  - unfold Ingest.ingest_file, Ingest.mbind, Ingest.notify, Ingest.lift,
      Ingest.segment, Segmenter.chunk_text_call.
    rewrite Ex, (SegmenterFacts.chunk_text_whitespace _ _ 800 120 Hws).
    destruct cb; eexists; (split; [reflexivity | cbn; auto]).
Qed.

(** C10. The ids made for a batch are pairwise distinct whatever the uuid
    generator returns, and so are the ids of the entries that the
    ingestion of one file adds to the collection. *)
Theorem batch_ids_distinct :
  (forall first n, NoDup (make_ids first n)) /\
  (forall cb full total w,
     exists added,
       store (snd (ingest_file cb full total w)) = store w ++ added /\
       NoDup (map entry_id added)).
Proof.
  split; [exact make_ids_NoDup|].
  intros cb full total w.
  destruct (ingest_file_store cb full total w) as (n & Hs & Hn).
  eexists; split; [exact Hs|].
  rewrite zip3_id.
  - apply make_ids_NoDup.
  - rewrite make_ids_length, length_firstn.
    destruct Hn as [->| ->]; lia.
  - rewrite make_ids_length, length_firstn, doc_metas_length.
    destruct Hn as [->| ->]; lia.
Qed.

End WithCollaborators.

Example demo_pdf_files :
  pdf_files Demo.walk
  = [lit "papers/a.pdf"; lit "papers/blank.pdf"; lit "papers/sub/LONG.PDF"].
Proof. reflexivity. Qed.

Example demo_chunk_counts :
  map (fun f => length (doc_chunks Demo.extract f)) (pdf_files Demo.walk) = [1; 0; 2].
Proof. vm_compute. reflexivity. Qed.

(** C3 on a tree of three documents, of one, no and two chunks. *)
Lemma ingest_folder_total_witness :
  (forall full, In full (pdf_files Demo.walk) ->
     exists text, Demo.extract full = Ok text) /\
  (forall full, In full (pdf_files Demo.walk) ->
     exists vecs, Demo.encode (doc_chunks Demo.extract full) = Ok vecs) /\
  (forall c ids texts metas, Demo.add_error c ids texts metas = None) /\
  NoDup (pdf_files Demo.walk) /\
  exists w' added,
    ingest_folder Demo.extract Demo.encode Demo.add_error Demo.uuid4_hex
      Demo.walk true Demo.empty_world
    = (Returned (list_sum (map (fun f => length (doc_chunks Demo.extract f))
                               (pdf_files Demo.walk))), w') /\
    store w' = store Demo.empty_world ++ added /\
    map entry_document added = flat_map (doc_chunks Demo.extract) (pdf_files Demo.walk) /\
    map entry_metadata added = flat_map (doc_metas Demo.extract) (pdf_files Demo.walk) /\
    forall full, In full (pdf_files Demo.walk) ->
      chunk_indexes full (map entry_metadata added)
      = map (fun i => Some (VInt (Z.of_nat i)))
            (seq 0 (length (doc_chunks Demo.extract full))).
Proof.
  assert (H1 : forall full, In full (pdf_files Demo.walk) ->
                 exists text, Demo.extract full = Ok text).
  { rewrite demo_pdf_files. intros full [<-|[<-|[<-|[]]]]; eexists; reflexivity. }
  assert (H2 : forall full, In full (pdf_files Demo.walk) ->
                 exists vecs, Demo.encode (doc_chunks Demo.extract full) = Ok vecs).
  { intros full _. eexists. reflexivity. }
  assert (H3 : forall c ids texts metas, Demo.add_error c ids texts metas = None)
    by reflexivity.
  assert (H4 : NoDup (pdf_files Demo.walk)).
  { rewrite demo_pdf_files.
    repeat constructor; simpl; intuition discriminate. }
  split; [exact H1 | split; [exact H2 | split; [exact H3 | split; [exact H4 |]]]].
  exact (@ingest_folder_total Demo.extract Demo.encode Demo.add_error
           Demo.uuid4_hex Demo.walk true Demo.empty_world H1 H2 H3 H4).
Defined.

(** C4 on a directory whose second document cannot be read. *)
Lemma ingest_folder_fail_fast_witness :
  pdf_files Demo.walk_with_bad
  = [lit "papers/a.pdf"] ++ lit "papers/bad.pdf" :: [lit "papers/c.pdf"] /\
  ingest_files Demo.extract Demo.encode Demo.add_error Demo.uuid4_hex
    true [lit "papers/a.pdf"] 0 Demo.empty_world = (Returned 1, Demo.world_after_a) /\
  fails_with Demo.extract Demo.encode Demo.add_error Demo.uuid4_hex
    (lit "papers/bad.pdf") Demo.world_after_a (Exn "ExtractionError" "corrupt file") /\
  exists w2 added,
    ingest_folder Demo.extract Demo.encode Demo.add_error Demo.uuid4_hex
      Demo.walk_with_bad true Demo.empty_world
    = (Raised (Exn "ExtractionError" "corrupt file"), w2) /\
    store w2 = store Demo.world_after_a /\
    store Demo.world_after_a = store Demo.empty_world ++ added.
Proof.
  assert (H1 : pdf_files Demo.walk_with_bad
               = [lit "papers/a.pdf"] ++ lit "papers/bad.pdf" :: [lit "papers/c.pdf"])
    by reflexivity.
  assert (H2 : ingest_files Demo.extract Demo.encode Demo.add_error Demo.uuid4_hex
                 true [lit "papers/a.pdf"] 0 Demo.empty_world
               = (Returned 1, Demo.world_after_a)) by (vm_compute; reflexivity).
  assert (H3 : fails_with Demo.extract Demo.encode Demo.add_error Demo.uuid4_hex
                 (lit "papers/bad.pdf") Demo.world_after_a
                 (Exn "ExtractionError" "corrupt file"))
    by (apply fails_extract; reflexivity).
  split; [exact H1 | split; [exact H2 | split; [exact H3 |]]].
  exact (@ingest_folder_fail_fast Demo.extract Demo.encode Demo.add_error
           Demo.uuid4_hex Demo.walk_with_bad true Demo.empty_world
           _ _ _ _ _ _ H1 H2 H3).
Defined.

(** C9 on a document of spaces and a line break. *)
Lemma whitespace_document_skipped_witness :
  lit "   " ++ [nl] ++ lit "  " <> [] /\
  forallb isspace (lit "   " ++ [nl] ++ lit "  ") = true /\
  Demo.extract (lit "papers/blank.pdf") = Ok (lit "   " ++ [nl] ++ lit "  ") /\
  (forall chunk_size overlap,
     Segmenter.chunk_text isspace (lit "   " ++ [nl] ++ lit "  ") chunk_size overlap
     = Some [] /\
     Segmenter.chunk_text isspace [] chunk_size overlap = Some []) /\
  exists w',
    ingest_file Demo.extract Demo.encode Demo.add_error Demo.uuid4_hex
      true (lit "papers/blank.pdf") 7 Demo.empty_world = (Returned 7, w') /\
    store w' = store Demo.empty_world /\
    uuid_calls w' = uuid_calls Demo.empty_world.
Proof.
  assert (H1 : lit "   " ++ [nl] ++ lit "  " <> []) by discriminate.
  assert (H2 : forallb isspace (lit "   " ++ [nl] ++ lit "  ") = true) by reflexivity.
  assert (H3 : Demo.extract (lit "papers/blank.pdf")
               = Ok (lit "   " ++ [nl] ++ lit "  ")) by reflexivity.
  split; [exact H1 | split; [exact H2 | split; [exact H3 |]]].
  exact (@whitespace_document_skipped Demo.extract Demo.encode
           Demo.add_error Demo.uuid4_hex true (lit "papers/blank.pdf") 7
           Demo.empty_world _ H1 H2 H3).
Defined.

End IngestFacts.

Module JsonFacts.
Import Py PyFacts Json.

Ltac all_chars c := destruct c as [[] [] [] [] [] [] [] []].

(** *** Strings *)

Lemma escape_char_parse (c : ascii) (tail acc : str) :
  parse_string (escape_char c ++ tail) acc = parse_string tail (c :: acc).
Proof. all_chars c; reflexivity. Qed.

Lemma parse_string_escaped (s : str) : forall rest acc,
  parse_string (flat_map escape_char s ++ dq :: rest) acc = Some (rev acc ++ s, rest).
Proof.
  induction s as [|c s IH]; intros rest acc.
  - cbn. now rewrite app_nil_r.
  - cbn [flat_map]. rewrite <- app_assoc, escape_char_parse, IH.
    cbn [rev]. now rewrite <- app_assoc.
Qed.

Lemma parse_quote (s rest : str) :
  exists tl, quote s ++ rest = dq :: tl /\ parse_string tl [] = Some (s, rest).
Proof.
  exists (flat_map escape_char s ++ dq :: rest). split.
  - unfold quote. cbn [app]. now rewrite <- app_assoc.
  - apply parse_string_escaped.
Qed.

(** *** Numbers *)

Lemma startswith_nil (s : str) : startswith s [] = true.
Proof. now destruct s. Qed.

Lemma startswith_char (c p : ascii) (s : str) :
  startswith (c :: s) [p] = Ascii.eqb p c.
Proof. cbn [startswith]. now rewrite startswith_nil, andb_true_r. Qed.

Lemma digits_all d :
  forallb is_digit (list_ascii_of_string (NilEmpty.string_of_uint d)) = true.
Proof. induction d; simpl; auto. Qed.

Lemma digits_nonnil d : d <> Nil ->
  list_ascii_of_string (NilEmpty.string_of_uint d) <> [].
Proof. destruct d; simpl; congruence. Qed.

Lemma stops_number_digit rest :
  stops_number rest = true ->
  take_while is_digit rest = [] /\ drop_while is_digit rest = rest /\
  (startswith rest (lit ".") || startswith rest (lit "e")
   || startswith rest (lit "E")) = false.
Proof.
  destruct rest as [|c rest]; [auto|].
  unfold stops_number. rewrite !andb_true_iff, !negb_true_iff.
  intros [[[Hd H1] H2] H3].
  cbn [take_while drop_while]. rewrite Hd.
  change (lit ".") with ["."%char]. change (lit "e") with ["e"%char].
  change (lit "E") with ["E"%char]. rewrite !startswith_char.
  rewrite (Ascii.eqb_sym "." c), (Ascii.eqb_sym "e" c), (Ascii.eqb_sym "E" c).
  now rewrite H1, H2, H3.
Qed.

Lemma parse_digits d rest : d <> Nil -> stops_number rest = true ->
  let ds := list_ascii_of_string (NilEmpty.string_of_uint d) in
  take_while is_digit (ds ++ rest) = ds /\ drop_while is_digit (ds ++ rest) = rest.
Proof.
  intros Hd Hs ds. destruct (@stops_number_digit rest Hs) as (Ht & Hdr & _).
  split.
  - rewrite take_while_app_all by apply digits_all. now rewrite Ht, app_nil_r.
  - rewrite drop_while_app_all by apply digits_all. exact Hdr.
Qed.

Lemma digit_not_dash c : is_digit c = true -> Ascii.eqb "-" c = false.
Proof. all_chars c; try discriminate; reflexivity. Qed.

Lemma parse_uint (negative : bool) d rest :
  d <> Nil -> stops_number rest = true ->
  parse_int ((if negative then lit "-" else []) ++
             list_ascii_of_string (NilEmpty.string_of_uint d) ++ rest)
  = Some (VInt (Z.of_int (if negative then Decimal.Neg d else Decimal.Pos d)), rest).
Proof.
  intros Hd Hs. destruct (@parse_digits d rest Hd Hs) as [Ht Hdr].
  destruct (@stops_number_digit rest Hs) as (_ & _ & Hstop).
  pose proof (@digits_nonnil d Hd) as Hne.
  pose proof (digits_all d) as Hall.
  unfold parse_int. cbv zeta.
  assert (Hneg : startswith ((if negative then lit "-" else []) ++
                             list_ascii_of_string (NilEmpty.string_of_uint d) ++ rest)
                            (lit "-") = negative).
  { destruct negative; [apply startswith_char|].
    destruct (list_ascii_of_string (NilEmpty.string_of_uint d)) as [|c ds];
      [congruence|].
    simpl in Hall. apply andb_true_iff in Hall as [Hc _].
    change (lit "-") with ["-"%char]. cbn [app].
    now rewrite startswith_char, (@digit_not_dash c Hc). }
  rewrite Hneg.
  assert (Hbody : (if negative
                   then skipn 1 ((if negative then lit "-" else []) ++
                          list_ascii_of_string (NilEmpty.string_of_uint d) ++ rest)
                   else (if negative then lit "-" else []) ++
                          list_ascii_of_string (NilEmpty.string_of_uint d) ++ rest)
                  = list_ascii_of_string (NilEmpty.string_of_uint d) ++ rest)
    by (destruct negative; reflexivity).
  rewrite Hbody, Ht, Hdr.
  destruct (list_ascii_of_string (NilEmpty.string_of_uint d)) as [|a l] eqn:E;
    [congruence|].
  rewrite <- E, string_of_list_ascii_of_string, NilEmpty.usu, Hstop.
  reflexivity.
Qed.

Lemma str_of_Z_shape z :
  exists (negative : bool) d,
    d <> Nil /\ Z.to_int z = (if negative then Decimal.Neg d else Decimal.Pos d) /\
    str_of_Z z = (if negative then lit "-" else []) ++
                 list_ascii_of_string (NilEmpty.string_of_uint d).
Proof.
  unfold str_of_Z. destruct z as [|p|p]; cbn [Z.to_int].
  - exists false, Decimal.zero. repeat split. discriminate.
  - exists false, (Pos.to_uint p). repeat split.
    apply DecimalPos.Unsigned.to_uint_nonnil.
  - exists true, (Pos.to_uint p). repeat split.
    apply DecimalPos.Unsigned.to_uint_nonnil.
Qed.

Lemma parse_int_str_of_Z z rest : stops_number rest = true ->
  parse_int (str_of_Z z ++ rest) = Some (VInt z, rest).
Proof.
  intros Hs. destruct (str_of_Z_shape z) as (negative & d & Hd & Hz & ->).
  rewrite <- app_assoc, (@parse_uint negative d rest Hd Hs), <- Hz.
  now rewrite DecimalZ.of_to.
Qed.

Lemma value_ind_nested (P : value -> Prop) :
  P VNone -> (forall b, P (VBool b)) -> (forall z, P (VInt z)) ->
  (forall f, P (VFloat f)) -> (forall s, P (VStr s)) ->
  (forall l, Forall P l -> P (VList l)) ->
  (forall items, Forall (fun kv => P (snd kv)) items -> P (VDict items)) ->
  forall v, P v.
Proof.
  intros HN HB HI HF HS HL HD.
  fix IH 1. intros [| b | z | f | s | l | items].
  - exact HN.
  - apply HB.
  - apply HI.
  - apply HF.
  - apply HS.
  - apply HL. induction l as [|x l IHl]; constructor; [apply IH | exact IHl].
  - apply HD. induction items as [|[k x] items IHi]; constructor;
      [apply IH | exact IHi].
Qed.

(** *** Layout *)

Lemma skip_ws_start (s : str) : starts_value s = true -> skip_ws s = s.
Proof.
  destruct s as [|c s]; [discriminate|].
  unfold starts_value, skip_ws. rewrite !andb_true_iff, !negb_true_iff.
  intros [[Hc _] _]. cbn. now rewrite Hc.
Qed.

Lemma indent_ws n : forallb is_ws (indent n) = true.
Proof. unfold indent. induction (2 * n) as [|m IH]; simpl; auto. Qed.

Lemma skip_ws_line n (s : str) : starts_value s = true ->
  skip_ws (nl :: indent n ++ s) = s.
Proof.
  intros H. unfold skip_ws.
  change (nl :: indent n ++ s) with ((nl :: indent n) ++ s).
  rewrite drop_while_app_all by (cbn; apply indent_ws).
  now apply skip_ws_start.
Qed.

Lemma skip_ws_line_char n (c : ascii) (s : str) : is_ws c = false ->
  skip_ws (nl :: indent n ++ c :: s) = c :: s.
Proof.
  intros H. unfold skip_ws.
  change (nl :: indent n ++ c :: s) with ((nl :: indent n) ++ c :: s).
  rewrite drop_while_app_all by (cbn; apply indent_ws).
  cbn. now rewrite H.
Qed.

Lemma digit_starts c : is_digit c = true ->
  negb (is_ws c) && negb (Ascii.eqb c "]") && negb (Ascii.eqb c "}") = true.
Proof. all_chars c; try discriminate; reflexivity. Qed.

Lemma str_of_Z_starts z rest : starts_value (str_of_Z z ++ rest) = true.
Proof.
  destruct (str_of_Z_shape z) as (negative & d & Hd & _ & ->).
  destruct negative; [reflexivity|].
  pose proof (digits_all d) as Hall. pose proof (@digits_nonnil d Hd) as Hne.
  destruct (list_ascii_of_string (NilEmpty.string_of_uint d)) as [|c ds];
    [congruence|].
  simpl in Hall. apply andb_true_iff in Hall as [Hc _].
  cbn [app starts_value]. now apply digit_starts.
Qed.

Lemma dumps_starts (v : value) level rest :
  float_free v = true -> starts_value (dumps_at level v ++ rest) = true.
Proof.
  destruct v as [| [] | z | f | s | [|x l] | [|kv items]]; intros H;
    try reflexivity; try discriminate.
  apply str_of_Z_starts.
Qed.

Lemma join_cons2 (sep a b : str) (l : list str) :
  join sep (a :: b :: l) = a ++ sep ++ join sep (b :: l).
Proof. reflexivity. Qed.

Lemma join_starts sep level (y : value) (l : list value) rest :
  float_free y = true ->
  starts_value (join sep (map (dumps_at level) (y :: l)) ++ rest) = true.
Proof.
  intros Hy. destruct l as [|z l]; cbn [map].
  - now apply dumps_starts.
  - rewrite join_cons2, <- app_assoc. now apply dumps_starts.
Qed.

(** *** Values *)

Lemma digit_dispatch c : is_digit c = true \/ c = "-"%char ->
  Ascii.eqb c "n" = false /\ Ascii.eqb c "t" = false /\ Ascii.eqb c "f" = false /\
  Ascii.eqb c dq = false /\ Ascii.eqb c "[" = false /\ Ascii.eqb c "{" = false.
Proof.
  intros [H| ->]; [|repeat split; reflexivity].
  all_chars c; try discriminate; repeat split; reflexivity.
Qed.

Lemma str_of_Z_head z :
  exists c tl, str_of_Z z = c :: tl /\ (is_digit c = true \/ c = "-"%char).
Proof.
  destruct (str_of_Z_shape z) as (negative & d & Hd & _ & ->).
  destruct negative; [eexists _, _; split; [reflexivity | now right]|].
  pose proof (digits_all d) as Hall. pose proof (@digits_nonnil d Hd) as Hne.
  destruct (list_ascii_of_string (NilEmpty.string_of_uint d)) as [|c ds];
    [congruence|].
  simpl in Hall. apply andb_true_iff in Hall as [Hc _].
  exists c, ds. split; [reflexivity | now left].
Qed.

Lemma parse_value_int fuel z rest : stops_number rest = true ->
  parse_value (S fuel) (str_of_Z z ++ rest) = Some (VInt z, rest).
Proof.
  intros Hs. rewrite <- (@parse_int_str_of_Z z rest Hs).
  destruct (str_of_Z_head z) as (c & tl & E & Hc). rewrite E.
  destruct (digit_dispatch Hc) as (H1 & H2 & H3 & H4 & H5 & H6).
  cbn [app parse_value]. now rewrite H1, H2, H3, H4, H5, H6.
Qed.

Lemma parse_value_str fuel s rest :
  parse_value (S fuel) (quote s ++ rest) = Some (VStr s, rest).
Proof.
  destruct (parse_quote s rest) as (tl & E & Hp). rewrite E.
  cbn [parse_value].
  change (Ascii.eqb dq "n") with false. change (Ascii.eqb dq "t") with false.
  change (Ascii.eqb dq "f") with false. change (Ascii.eqb dq dq) with true.
  cbv iota. now rewrite Hp.
Qed.

Lemma startswith_app (word rest : str) : startswith (word ++ rest) word = true.
Proof.
  induction word as [|c word IH]; [apply startswith_nil|].
  cbn [app startswith]. now rewrite Ascii.eqb_refl, IH.
Qed.

Lemma literal_ok (word : str) (v : value) (rest : str) :
  literal word v (word ++ rest) = Some (v, rest).
Proof.
  unfold literal. rewrite startswith_app. f_equal. f_equal.
  induction word as [|c word IH]; [reflexivity | exact IH].
Qed.

Lemma parse_value_literal fuel (rest : str) :
  parse_value (S fuel) (lit "null" ++ rest) = Some (VNone, rest) /\
  parse_value (S fuel) (lit "true" ++ rest) = Some (VBool true, rest) /\
  parse_value (S fuel) (lit "false" ++ rest) = Some (VBool false, rest).
Proof.
  repeat split.
  - exact (literal_ok (lit "null") VNone rest).
  - exact (literal_ok (lit "true") (VBool true) rest).
  - exact (literal_ok (lit "false") (VBool false) rest).
Qed.

Lemma first_char (s : str) : starts_value s = true ->
  exists c tl, s = c :: tl /\ Ascii.eqb c "]" = false /\ Ascii.eqb c "}" = false.
Proof.
  destruct s as [|c tl]; [discriminate|].
  unfold starts_value. rewrite !andb_true_iff, !negb_true_iff.
  intros [[_ H1] H2]. now exists c, tl.
Qed.

Lemma parse_elements_dumps level (l : list value) : l <> [] ->
  Forall reads_back l -> forallb float_free l = true ->
  forall fuel rest,
    list_sum (map (fun x => S (size x)) l) <= fuel ->
    parse_elements fuel
      (join (separator (S level)) (map (dumps_at (S level)) l) ++
       nl :: indent level ++ "]"%char :: rest)
    = Some (l, rest).
Proof.
  induction l as [|x l IH]; intros Hne HP Hff fuel rest Hfuel; [congruence|].
  inversion HP as [|? ? Hx HPl]; subst.
  cbn [forallb] in Hff. apply andb_true_iff in Hff as [Hfx Hfl].
  cbn [map list_sum fold_right] in Hfuel.
  destruct fuel as [|f]; [lia|].
  cbn [parse_elements].
  destruct l as [|y l'].
  - cbn [map join].
    rewrite (Hx Hfx (S level) f (nl :: indent level ++ "]"%char :: rest))
      by (try reflexivity; cbn [map list_sum fold_right] in *; lia).
    rewrite skip_ws_line_char by reflexivity. reflexivity.
  - change (join (separator (S level)) (map (dumps_at (S level)) (x :: y :: l')))
      with (dumps_at (S level) x ++ separator (S level) ++
            join (separator (S level)) (map (dumps_at (S level)) (y :: l'))).
    rewrite <- !app_assoc.
    unfold separator at 1. rewrite <- !app_assoc.
    change (lit "," ++ [nl] ++ indent (S level) ++
            join (separator (S level)) (map (dumps_at (S level)) (y :: l')) ++
            nl :: indent level ++ "]"%char :: rest)
      with (","%char :: nl :: indent (S level) ++
            (join (separator (S level)) (map (dumps_at (S level)) (y :: l')) ++
             nl :: indent level ++ "]"%char :: rest)).
    rewrite (Hx Hfx (S level) f) by (try reflexivity; lia).
    cbn [skip_ws drop_while]. change (is_ws ",") with false. cbv iota.
    change (Ascii.eqb "," "]") with false. change (Ascii.eqb "," ",") with true.
    cbv iota.
    fold (skip_ws (nl :: indent (S level) ++
            (join (separator (S level)) (map (dumps_at (S level)) (y :: l')) ++
             nl :: indent level ++ "]"%char :: rest))).
    rewrite skip_ws_line.
    + rewrite IH; auto; [discriminate | cbn [map list_sum fold_right] in *; lia].
    + apply join_starts. cbn [forallb] in Hfl.
      now apply andb_true_iff in Hfl as [? _].
Qed.


Lemma parse_members_dumps level (items : list (str * value)) : items <> [] ->
  Forall (fun kv => reads_back (snd kv)) items ->
  forallb (fun kv => float_free (snd kv)) items = true ->
  forall fuel rest,
    list_sum (map (fun kv => S (size (snd kv))) items) <= fuel ->
    parse_members fuel
      (join (separator (S level))
            (map (fun kv => quote (fst kv) ++ lit ": " ++ dumps_at (S level) (snd kv))
                 items) ++
       nl :: indent level ++ "}"%char :: rest)
    = Some (items, rest).
Proof.
  induction items as [|[k x] items IH]; intros Hne HP Hff fuel rest Hfuel;
    [congruence|].
  inversion HP as [|? ? Hx HPl]; subst. cbn [snd] in Hx.
  cbn [forallb snd] in Hff. apply andb_true_iff in Hff as [Hfx Hfl].
  cbn [map list_sum fold_right snd] in Hfuel.
  destruct fuel as [|f]; [lia|].
  assert (Hmember : forall tail : str,
             stops_number tail = true ->
             exists tl,
               quote k ++ lit ": " ++ dumps_at (S level) x ++ tail = dq :: tl /\
               parse_string tl [] = Some (k, ":"%char :: " "%char ::
                                             dumps_at (S level) x ++ tail) /\
               parse_value f (skip_ws (" "%char :: dumps_at (S level) x ++ tail))
               = Some (x, tail)).
  { intros tail Htail.
    destruct (parse_quote k (lit ": " ++ dumps_at (S level) x ++ tail))
      as (tl & E & Hp).
    exists tl. split; [exact E|]. split; [exact Hp|].
    unfold skip_ws. cbn [drop_while]. change (is_ws " ") with true. cbv iota.
    fold (skip_ws (dumps_at (S level) x ++ tail)).
    rewrite skip_ws_start by (now apply dumps_starts).
    apply Hx; auto. lia. }
  destruct items as [|[k' y] items'].
  - cbn [map join fst snd]. rewrite <- !app_assoc.
    destruct (Hmember (nl :: indent level ++ "}"%char :: rest) eq_refl)
      as (tl & E & Hp & Hv).
    rewrite E. cbn [parse_members].
    change (Ascii.eqb dq dq) with true. cbv iota. rewrite Hp.
    cbn [skip_ws drop_while]. change (is_ws ":") with false. cbv iota.
    change (Ascii.eqb ":" ":") with true. cbv iota.
    fold (skip_ws (" "%char :: dumps_at (S level) x ++
                   nl :: indent level ++ "}"%char :: rest)).
    rewrite Hv. rewrite skip_ws_line_char by reflexivity. reflexivity.
  - set (more := join (separator (S level))
                   (map (fun kv => quote (fst kv) ++ lit ": " ++
                                   dumps_at (S level) (snd kv))
                        ((k', y) :: items'))).
    assert (Hshape :
              join (separator (S level))
                (map (fun kv => quote (fst kv) ++ lit ": " ++
                                dumps_at (S level) (snd kv))
                     ((k, x) :: (k', y) :: items')) ++
              nl :: indent level ++ "}"%char :: rest
              = quote k ++ lit ": " ++ dumps_at (S level) x ++
                ","%char :: nl :: indent (S level) ++
                (more ++ nl :: indent level ++ "}"%char :: rest)).
    { unfold more. cbn [map fst snd]. rewrite join_cons2.
      unfold separator at 1. rewrite <- !app_assoc. reflexivity. }
    rewrite Hshape.
    destruct (Hmember (","%char :: nl :: indent (S level) ++
                       (more ++ nl :: indent level ++ "}"%char :: rest)) eq_refl)
      as (tl & E & Hp & Hv).
    rewrite E. cbn [parse_members].
    change (Ascii.eqb dq dq) with true. cbv iota. rewrite Hp.
    cbn [skip_ws drop_while]. change (is_ws ":") with false. cbv iota.
    change (Ascii.eqb ":" ":") with true. cbv iota.
    fold (skip_ws (" "%char :: dumps_at (S level) x ++
                   ","%char :: nl :: indent (S level) ++
                   (more ++ nl :: indent level ++ "}"%char :: rest))).
    rewrite Hv.
    cbn [skip_ws drop_while]. change (is_ws ",") with false. cbv iota.
    change (Ascii.eqb "," "}") with false. change (Ascii.eqb "," ",") with true.
    cbv iota.
    fold (skip_ws (nl :: indent (S level) ++
                   (more ++ nl :: indent level ++ "}"%char :: rest))).
    rewrite skip_ws_line.
    + unfold more. rewrite IH; auto; [discriminate |].
      cbn [map list_sum fold_right snd] in *. lia.
    + unfold more. cbn [map fst snd].
      destruct items' as [|kv items'']; cbn [map];
        rewrite ?join_cons2; cbn [join]; rewrite <- ?app_assoc; reflexivity.
Qed.

(** Every value without floats is read back from its rendering, at any
    nesting level, when what follows cannot continue a number. *)
Lemma dumps_reads_back (v : value) : reads_back v.
Proof.
  induction v as [| b | z | f | s | l IHl | items IHi] using value_ind_nested;
    intros Hff level fuel rest Hfuel Hrest;
    (destruct fuel as [|fuel]; [cbn [size] in Hfuel; lia|]).
  - apply parse_value_literal.
  - destruct b; apply parse_value_literal.
  - now apply parse_value_int.
  - discriminate.
  - apply parse_value_str.
  - destruct l as [|x l]; [reflexivity|].
    cbn [float_free] in Hff. cbn [size] in Hfuel.
    assert (Hshape :
              dumps_at level (VList (x :: l)) ++ rest
              = "["%char :: nl :: indent (S level) ++
                (join (separator (S level)) (map (dumps_at (S level)) (x :: l)) ++
                 nl :: indent level ++ "]"%char :: rest)).
    { change (dumps_at level (VList (x :: l)))
        with (lit "[" ++ [nl] ++ indent (S level) ++
              join (separator (S level)) (map (dumps_at (S level)) (x :: l)) ++
              [nl] ++ indent level ++ lit "]").
      rewrite <- !app_assoc. reflexivity. }
    rewrite Hshape.
    cbn [parse_value].
    change (Ascii.eqb "[" "n") with false. change (Ascii.eqb "[" "t") with false.
    change (Ascii.eqb "[" "f") with false. change (Ascii.eqb "[" dq) with false.
    change (Ascii.eqb "[" "[") with true. cbv iota.
    assert (Hst : starts_value
                    (join (separator (S level)) (map (dumps_at (S level)) (x :: l)) ++
                     nl :: indent level ++ "]"%char :: rest) = true).
    { apply join_starts. cbn [forallb] in Hff.
      now apply andb_true_iff in Hff as [? _]. }
    rewrite skip_ws_line by exact Hst.
    destruct (first_char _ Hst) as (c & tl & E & Hc & _).
    rewrite E, Hc, <- E.
    rewrite parse_elements_dumps; auto; [discriminate | lia].
  - destruct items as [|kv items]; [reflexivity|].
    cbn [float_free] in Hff. cbn [size] in Hfuel.
    assert (Hshape :
              dumps_at level (VDict (kv :: items)) ++ rest
              = "{"%char :: nl :: indent (S level) ++
                (join (separator (S level))
                   (map (fun kv => quote (fst kv) ++ lit ": " ++
                                   dumps_at (S level) (snd kv)) (kv :: items)) ++
                 nl :: indent level ++ "}"%char :: rest)).
    { change (dumps_at level (VDict (kv :: items)))
        with (lit "{" ++ [nl] ++ indent (S level) ++
              join (separator (S level))
                (map (fun kv => quote (fst kv) ++ lit ": " ++
                                dumps_at (S level) (snd kv)) (kv :: items)) ++
              [nl] ++ indent level ++ lit "}").
      rewrite <- !app_assoc. reflexivity. }
    rewrite Hshape.
    cbn [parse_value].
    change (Ascii.eqb "{" "n") with false. change (Ascii.eqb "{" "t") with false.
    change (Ascii.eqb "{" "f") with false. change (Ascii.eqb "{" dq) with false.
    change (Ascii.eqb "{" "[") with false. change (Ascii.eqb "{" "{") with true.
    cbv iota.
    assert (Hst : starts_value
                    (join (separator (S level))
                       (map (fun kv => quote (fst kv) ++ lit ": " ++
                                       dumps_at (S level) (snd kv)) (kv :: items)) ++
                     nl :: indent level ++ "}"%char :: rest) = true).
    { destruct items as [|kv' items']; cbn [map];
        rewrite ?join_cons2; cbn [join]; rewrite <- ?app_assoc; reflexivity. }
    rewrite skip_ws_line by exact Hst.
    destruct (first_char _ Hst) as (c & tl & E & _ & Hc).
    rewrite E, Hc, <- E.
    rewrite parse_members_dumps; auto; [discriminate | lia].
Qed.


(** *** Fuel *)

Lemma join_length {A : Type} (g1 : A -> nat) (g2 : A -> str) (sep : str) (l : list A) :
  1 <= length sep ->
  Forall (fun x => g1 x <= length (g2 x)) l ->
  list_sum (map (fun x => S (g1 x)) l) <= 1 + length (join sep (map g2 l)).
Proof.
  intros Hsep. induction 1 as [|x l Hx Hl IH]; [cbn; lia|].
  destruct l as [|y l].
  - cbn [map list_sum fold_right join]. lia.
  - cbn [map] in *. rewrite join_cons2, !length_app.
    cbn [list_sum fold_right] in *. lia.
Qed.

Lemma separator_length level : 1 <= length (separator level).
Proof. unfold separator. cbn. lia. Qed.

Lemma size_le_dumps (v : value) : forall level, size v <= length (dumps_at level v).
Proof.
  induction v as [| b | z | f | s | l IHl | items IHi] using value_ind_nested;
    intros level.
  - cbn. lia.
  - destruct b; cbn; lia.
  - destruct (str_of_Z_head z) as (c & tl & E & _).
    cbn [size dumps_at]. rewrite E. cbn [length]. lia.
  - cbn. lia.
  - cbn [size dumps_at]. unfold quote. cbn [length]. lia.
  - destruct l as [|x l]; [cbn; lia|].
    change (dumps_at level (VList (x :: l)))
      with (lit "[" ++ [nl] ++ indent (S level) ++
            join (separator (S level)) (map (dumps_at (S level)) (x :: l)) ++
            [nl] ++ indent level ++ lit "]").
    cbn [size]. rewrite !length_app.
    pose proof (@join_length _ size (dumps_at (S level)) (separator (S level))
                  (x :: l) (separator_length (S level))) as Hj.
    assert (HF : Forall (fun x => size x <= length (dumps_at (S level) x)) (x :: l)).
    { eapply Forall_impl; [|exact IHl]. intros a Ha. apply Ha. }
    specialize (Hj HF). cbn [length lit list_ascii_of_string] in *. lia.
  - destruct items as [|kv items]; [cbn; lia|].
    change (dumps_at level (VDict (kv :: items)))
      with (lit "{" ++ [nl] ++ indent (S level) ++
            join (separator (S level))
              (map (fun kv => quote (fst kv) ++ lit ": " ++
                              dumps_at (S level) (snd kv)) (kv :: items)) ++
            [nl] ++ indent level ++ lit "}").
    cbn [size]. rewrite !length_app.
    pose proof (@join_length _ (fun kv => size (snd kv))
                  (fun kv => quote (fst kv) ++ lit ": " ++ dumps_at (S level) (snd kv))
                  (separator (S level))
                  (kv :: items) (separator_length (S level))) as Hj.
    assert (HF : Forall (fun kv : str * value =>
                           size (snd kv)
                           <= length (quote (fst kv) ++ lit ": " ++
                                      dumps_at (S level) (snd kv))) (kv :: items)).
    { eapply Forall_impl; [|exact IHi]. intros a Ha. cbv beta in Ha.
      rewrite !length_app. specialize (Ha (S level)). lia. }
    specialize (Hj HF). cbn [length lit list_ascii_of_string] in *. lia.
Qed.

(** The codec reads back what it writes, for every value without floats. *)
Theorem loads_dumps (v : value) :
  float_free v = true -> loads (dumps v) = Some v.
Proof.
  intros Hff. unfold loads, dumps.
  assert (Hst : starts_value (dumps_at 0 v) = true).
  { rewrite <- (app_nil_r (dumps_at 0 v)). now apply dumps_starts. }
  rewrite (skip_ws_start _ Hst).
  rewrite <- (app_nil_r (dumps_at 0 v)) at 2.
  rewrite (@dumps_reads_back v Hff 0 _ []); [reflexivity | | reflexivity].
  pose proof (size_le_dumps v 0). lia.
Qed.

End JsonFacts.

Module CitationsFacts.
Import Py PyFacts Citations.


Section WithCollaborators.

Variable http_get_json : str -> result value.
Variable str_of_other : value -> str.
Variable json_dumps : value -> str.
Variable json_loads : str -> option value.

Local Abbreviation build_citations :=
  (build_citations http_get_json str_of_other json_dumps).
Local Abbreviation crossref_lookup := (crossref_lookup http_get_json).

(** C7, as the code has it.  For the identifier list [["10.1000/xyz123"]],
    style ["bibtex"] and a resolver whose answer carries the record of the
    example, [build_citations] returns exactly one entry, laid out on six
    lines: the header, the four fields each indented by two spaces, and the
    closing brace. *)
Theorem build_citations_doe body :
  http_get_json (lit "https://api.crossref.org/works/10.1000/xyz123") = Ok body ->
  get body (lit "message") (VDict []) = Ok Demo.doe_record ->
  build_citations [lit "10.1000/xyz123"] (lit "bibtex") = Ok Demo.doe_entry.
Proof.
  intros Hhttp Hmsg.
  unfold Citations.build_citations, Citations.crossref_lookup.
  cbn [mapM]. 
  change (contains (lit "doi.org/") (lit "10.1000/xyz123")) with false.
  cbv iota.
  change (lit "https://api.crossref.org/works/" ++ lit "10.1000/xyz123")
    with (lit "https://api.crossref.org/works/10.1000/xyz123").
  rewrite Hhttp. cbn [Py.bind]. rewrite Hmsg. cbn [Py.bind].
  reflexivity.
Qed.

(** For any other style the result is the serialization of the records
    fetched, as they are. *)
Lemma build_citations_other_style identifiers style messages :
  lower style <> lit "bibtex" ->
  mapM crossref_lookup identifiers = Ok messages ->
  build_citations identifiers style = Ok (json_dumps (VList messages)).
Proof.
  intros Hstyle Hfetch.
  unfold Citations.build_citations. rewrite Hfetch. cbn [Py.bind].
  now rewrite (str_eqb_neq Hstyle).
Qed.


End WithCollaborators.

(** With the codec of [Json] for the library, the string parses back into
    the records fetched whenever they hold no float. *)
Lemma build_citations_json_codec http_get_json str_of_other identifiers style messages :
  lower style <> lit "bibtex" ->
  mapM (Citations.crossref_lookup http_get_json) identifiers = Ok messages ->
  forallb Json.float_free messages = true ->
  exists s,
    Citations.build_citations http_get_json str_of_other Json.dumps identifiers style
    = Ok s /\
    Json.loads s = Some (VList messages).
Proof.
  intros Hstyle Hfetch Hff. eexists. split.
  - apply build_citations_other_style; eassumption.
  - apply JsonFacts.loads_dumps. exact Hff.
Qed.

(** C7 fails on the code: the entry is not the one-line text that the
    specification gives. *)
Lemma build_citations_doe_not_one_line :
  Citations.build_citations Demo.http_get_json Demo.str_of_other Json.dumps
    [lit "10.1000/xyz123"] (lit "bibtex")
  <> Ok Demo.doe_entry_one_line.
Proof. vm_compute. discriminate. Qed.

(** C7, as the code has it, with the resolver of the examples. *)
Lemma build_citations_doe_witness :
  Demo.http_get_json (lit "https://api.crossref.org/works/10.1000/xyz123")
  = Ok (VDict [(lit "status", VStr (lit "ok")); (lit "message", Demo.doe_record)]) /\
  get (VDict [(lit "status", VStr (lit "ok")); (lit "message", Demo.doe_record)])
      (lit "message") (VDict []) = Ok Demo.doe_record /\
  Citations.build_citations Demo.http_get_json Demo.str_of_other Json.dumps
    [lit "10.1000/xyz123"] (lit "bibtex") = Ok Demo.doe_entry.
Proof.
  split; [reflexivity | split; [reflexivity |]].
  apply (@build_citations_doe Demo.http_get_json Demo.str_of_other Json.dumps
           (VDict [(lit "status", VStr (lit "ok")); (lit "message", Demo.doe_record)]));
    reflexivity.
Defined.


End CitationsFacts.
